(** * Grid traversals: flood fill, longest consecutive path, word search

    A shallow embedding of the three Python programs
    [filling_algorithm.py], [finding_long_way.py] and [word_search.py],
    and the properties their specification states about them.

    Python integers are [Z]; a Python list is a Rocq [list] read through
    [getitem], which follows Python's subscript rules (a negative index
    counts from the end, an index out of range raises [IndexError]).
    A program is a function from a state to an outcome and a state; the
    state survives an exception.  Every subscript [matrix[r][c]] the
    programs evaluate is recorded in the state's access log, so that
    statements about the indices a traversal touches can be made.
    Loops whose termination is not structural take a fuel argument. *)

From stdpp Require Import gmap strings list.
From Stdlib Require Import ZArith Lia Ascii.

Local Open Scope Z_scope.

(** ** Outcomes and the state-and-exception monad *)

Inductive exn := IndexError | ValueError | KeyError.

Inductive outcome (A : Type) : Type :=
  | Ok (a : A)
  | Raise (e : exn)
  | OutOfFuel.
Arguments Ok {A} a.
Arguments Raise {A} e.
Arguments OutOfFuel {A}.

Definition prog (S A : Type) : Type := S → outcome A * S.

Definition ret {S A} (a : A) : prog S A := λ s, (Ok a, s).

Definition bind {S A B} (m : prog S A) (k : A → prog S B) : prog S B :=
  λ s, match m s with
       | (Ok a, s') => k a s'
       | (Raise e, s') => (Raise e, s')
       | (OutOfFuel, s') => (OutOfFuel, s')
       end.

Definition lift {S A} (o : outcome A) : prog S A := λ s, (o, s).

Notation "x <- m ;; k" := (bind m (λ x, k))
  (at level 100, m at next level, right associativity).
Notation "m ;;; k" := (bind m (λ _, k))
  (at level 100, right associativity).

(** [for x in l: acc = body x acc] *)
Fixpoint for_in {S X B} (l : list X) (body : X → B → prog S B) (acc : B)
  : prog S B :=
  match l with
  | [] => ret acc
  | x :: l' => acc' <- body x acc ;; for_in l' body acc'
  end.

(** [for x in l: if body x: return True] followed by the code after the
    loop, [orelse]. *)
Fixpoint for_any {S X} (l : list X) (body : X → prog S bool)
    (orelse : prog S bool) : prog S bool :=
  match l with
  | [] => orelse
  | x :: l' => b <- body x ;; if b : bool then ret true else for_any l' body orelse
  end.

(** ** Python lists *)

Definition len {A} (l : list A) : Z := Z.of_nat (length l).

(** The position a Python subscript [l[i]] denotes, if any. *)
Definition py_index {A} (l : list A) (i : Z) : option nat :=
  if bool_decide (0 ≤ i < len l) then Some (Z.to_nat i)
  else if bool_decide (- len l ≤ i < 0) then Some (Z.to_nat (len l + i))
  else None.

Definition getitem {A} (l : list A) (i : Z) : outcome A :=
  match py_index l i ≫= (l !!.) with
  | Some x => Ok x
  | None => Raise IndexError
  end.

(** [range(n)] *)
Definition range (n : Z) : list Z := Z.of_nat <$> seq 0 (Z.to_nat n).

Definition cell : Type := Z * Z.

(** One entry of the access log: the subscript pair of a [matrix[r][c]]
    expression that was evaluated, as a load or as a store. *)
Inductive access := Read (r c : Z) | Write (r c : Z).

Definition access_cell (a : access) : cell :=
  match a with Read r c => (r, c) | Write r c => (r, c) end.

(** [matrix[r][c]] as an expression. *)
Definition grid_get {A} (g : list (list A)) (r c : Z) : outcome A :=
  match getitem g r with
  | Ok row => getitem row c
  | Raise e => Raise e
  | OutOfFuel => OutOfFuel
  end.

(** [matrix[r][c] = v]; the rows are distinct list objects. *)
Definition grid_set {A} (g : list (list A)) (r c : Z) (v : A)
  : outcome (list (list A)) :=
  match py_index g r with
  | Some i =>
      match g !! i with
      | Some row =>
          match py_index row c with
          | Some j => Ok (<[i := <[j := v]> row]> g)
          | None => Raise IndexError
          end
      | None => Raise IndexError
      end
  | None => Raise IndexError
  end.

(** [len(matrix)] and [len(matrix[0]) if rows > 0 else 0]. *)
Definition grid_rows {A} (g : list (list A)) : Z := len g.
Definition grid_cols {A} (g : list (list A)) : Z :=
  if bool_decide (grid_rows g > 0) then
    match g !! 0%nat with Some row => len row | None => 0 end
  else 0.

(** The grid invariant of the data model: all rows have equal length. *)
Definition rectangular {A} (g : list (list A)) : Prop :=
  Forall (λ row, len row = grid_cols g) g.

Definition in_bounds (rows cols : Z) (p : cell) : Prop :=
  0 ≤ p.1 < rows ∧ 0 ≤ p.2 < cols.

(** ** filling_algorithm.py *)

Module FloodFill.
Section flood_fill.
Context {Color : Type} `{EqDecision Color}.

(** The mutable part of a [FloodFillProblem]: its [matrix], and the log
    of the subscripts evaluated on it. *)
Record store := Store { matrix : list (list Color); log : list access }.

Record FloodFillProblem := Problem {
  initial : cell;
  rows : Z;
  cols : Z;
  target_color : Color;
  replacement_color : Color
}.

(** [FloodFillProblem.__init__] *)
Definition init (m : list (list Color)) (start : cell)
    (target replacement : Color) : FloodFillProblem :=
  {| initial := start; rows := grid_rows m; cols := grid_cols m;
     target_color := target; replacement_color := replacement |}.

Definition read_cell (r c : Z) : prog store Color :=
  λ s, (grid_get (matrix s) r c, Store (matrix s) (Read r c :: log s)).

Definition write_cell (r c : Z) (v : Color) : prog store unit :=
  λ s, match grid_set (matrix s) r c v with
       | Ok m' => (Ok tt, Store m' (Write r c :: log s))
       | Raise e => (Raise e, Store (matrix s) (Write r c :: log s))
       | OutOfFuel => (OutOfFuel, Store (matrix s) (Write r c :: log s))
       end.

Definition deltas : list (Z * Z) := [(0, 1); (0, -1); (1, 0); (-1, 0)].

(** [FloodFillProblem.actions] *)
Definition actions (p : FloodFillProblem) (state : cell)
  : prog store (list cell) :=
  let '(r, c) := state in
  for_in deltas (λ '(dr, dc) neighbors,
    let nr := r + dr in
    let nc := c + dc in
    if bool_decide (0 ≤ nr < rows p) && bool_decide (0 ≤ nc < cols p) then
      x <- read_cell nr nc ;;
      if decide (x = target_color p) then ret (neighbors ++ [(nr, nc)])
      else ret neighbors
    else ret neighbors) [].

(** [FloodFillProblem.result] *)
Definition result (p : FloodFillProblem) (state action : cell)
  : prog store cell :=
  let '(nr, nc) := action in
  write_cell nr nc (replacement_color p) ;;;
  ret action.

(** The [while stack:] loop of [flood_fill_dfs].  The Python list
    [stack] is kept with its last element first, so that [pop] takes
    the head and [append] conses.  One unit of fuel is one iteration. *)
Fixpoint while_stack (fuel : nat) (p : FloodFillProblem)
    (stack : list cell) : prog store unit :=
  match stack with
  | [] => ret tt
  | (cr, cc) :: stack =>
      match fuel with
      | O => lift OutOfFuel
      | S fuel =>
          children <- actions p (cr, cc) ;;
          stack <- for_in children (λ '(nr, nc) stack,
                     result p (cr, cc) (nr, nc) ;;;
                     ret ((nr, nc) :: stack)) stack ;;
          while_stack fuel p stack
      end
  end.

Definition flood_fill_dfs (fuel : nat) (p : FloodFillProblem)
  : prog store unit :=
  let '(r, c) := initial p in
  x <- read_cell r c ;;
  if decide (x ≠ target_color p) then ret tt
  else
    write_cell r c (replacement_color p) ;;;
    while_stack fuel p [(r, c)].

(** [Node].  Its [path_cost] is a Python float, of which [expand] stores
    only the default [0.0]: the type of costs and that value are
    parameters. *)
Context {Cost : Type} (zero_cost : Cost).

#[local] Unset Elimination Schemes.
Inductive Node := MkNode {
  state : cell;
  parent : option Node;
  action : option cell;
  path_cost : Cost
}.
#[local] Set Elimination Schemes.

(** [expand] is a generator; this is the list of the nodes it yields
    when it is run to its end, with the effects of doing so: [actions]
    is called once, when the generator starts, and [result] once for
    each node yielded. *)
Definition expand (p : FloodFillProblem) (node : Node)
  : prog store (list Node) :=
  let s := state node in
  children <- actions p s ;;
  for_in children (λ action yielded,
    s_next <- result p s action ;;
    ret (yielded ++ [MkNode s_next (Some node) (Some action) zero_cost])) [].

End flood_fill.
End FloodFill.

(** ** finding_long_way.py *)

Module LongestPath.

(** A one-character string is given by its code point; [ord] reads it
    and [chr] builds it, raising [ValueError] outside [range(0x110000)]. *)
Definition char : Type := Z.
Definition max_code_point : Z := 1114111.
Definition ord (ch : char) : Z := ch.
Definition chr (n : Z) : outcome char :=
  if bool_decide (0 ≤ n ≤ max_code_point) then Ok n else Raise ValueError.

Record LongestConsecutivePathProblem := Problem {
  matrix : list (list char);
  rows : Z;
  cols : Z;
  start_char : char
}.

(** [LongestConsecutivePathProblem.__init__] *)
Definition init (m : list (list char)) (c : char)
  : LongestConsecutivePathProblem :=
  {| matrix := m; rows := grid_rows m; cols := grid_cols m;
     start_char := c |}.

(** The matrix is only read; the state is the access log. *)
Definition read_cell (p : LongestConsecutivePathProblem) (r c : Z)
  : prog (list access) char :=
  λ log, (grid_get (matrix p) r c, Read r c :: log).

Definition deltas : list (Z * Z) :=
  [(-1, -1); (-1, 0); (-1, 1); (0, -1); (0, 1); (1, -1); (1, 0); (1, 1)].

(** [LongestConsecutivePathProblem.actions] *)
Definition actions (p : LongestConsecutivePathProblem) (state : cell)
  : prog (list access) (list cell) :=
  let '(r, c) := state in
  curr_char <- read_cell p r c ;;
  next_char <- lift (chr (ord curr_char + 1)) ;;
  for_in deltas (λ '(dr, dc) neighbors,
    let nr := r + dr in
    let nc := c + dc in
    if bool_decide (0 ≤ nr < rows p) && bool_decide (0 ≤ nc < cols p) then
      x <- read_cell p nr nc ;;
      if decide (x = next_char) then ret (neighbors ++ [(nr, nc)])
      else ret neighbors
    else ret neighbors) [].

(** [dfs_longest]; one unit of fuel is one level of recursion. *)
Fixpoint dfs_longest (fuel : nat) (p : LongestConsecutivePathProblem)
    (r c : Z) : prog (list access) Z :=
  match fuel with
  | O => lift OutOfFuel
  | S fuel =>
      children <- actions p (r, c) ;;
      for_in children (λ '(nr, nc) best_len,
        sub <- dfs_longest fuel p nr nc ;;
        let length_child := 1 + sub in
        if bool_decide (length_child > best_len) then ret length_child
        else ret best_len) 1
  end.

(** [find_longest_consecutive_path] *)
Definition find_longest_consecutive_path (fuel : nat)
    (p : LongestConsecutivePathProblem) : prog (list access) Z :=
  for_in (range (rows p)) (λ r longest_path,
    for_in (range (cols p)) (λ c longest_path,
      x <- read_cell p r c ;;
      if decide (x = start_char p) then
        length <- dfs_longest fuel p r c ;;
        if bool_decide (length > longest_path) then ret length
        else ret longest_path
      else ret longest_path) longest_path) 0.

End LongestPath.

(** ** word_search.py *)

Module WordSearch.
Section word_search.
Context {char : Type} `{Countable char}.

(** A word is a Python [str], the sequence of its characters. *)
Definition word : Type := list char.

(** The state of a search: the one [visited] set object of the attempt
    in progress, and the access log of the board. *)
Record store := Store { visited : gset cell; log : list access }.

Record WordSearchProblem := Problem {
  board : list (list char);
  dictionary : list word;
  rows : Z;
  cols : Z
}.

(** [WordSearchProblem.__init__] *)
Definition init (b : list (list char)) (d : list word)
  : WordSearchProblem :=
  {| board := b; dictionary := d; rows := grid_rows b;
     cols := grid_cols b |}.

Definition read_cell (b : list (list char)) (r c : Z) : prog store char :=
  λ s, (grid_get b r c, Store (visited s) (Read r c :: log s)).

(** [x in visited], [visited.add(x)], [visited.remove(x)], [set()] *)
Definition visited_mem (x : cell) : prog store bool :=
  λ s, (Ok (bool_decide (x ∈ visited s)), s).
Definition visited_add (x : cell) : prog store unit :=
  λ s, (Ok tt, Store ({[x]} ∪ visited s) (log s)).
Definition visited_remove (x : cell) : prog store unit :=
  λ s, if decide (x ∈ visited s)
       then (Ok tt, Store (visited s ∖ {[x]}) (log s))
       else (Raise KeyError, s).
Definition visited_new : prog store unit :=
  λ s, (Ok tt, Store ∅ (log s)).

Definition deltas : list (Z * Z) :=
  [(-1, -1); (-1, 0); (-1, 1); (0, -1); (0, 1); (1, -1); (1, 0); (1, 1)].

(** The inner function [dfs] of [can_form_word_dfs]; [b], [w], [rows]
    and [cols] are the variables it closes over.  One unit of fuel is
    one level of recursion. *)
Fixpoint dfs (fuel : nat) (b : list (list char)) (w : word)
    (rows cols : Z) (r c index : Z) : prog store bool :=
  match fuel with
  | O => lift OutOfFuel
  | S fuel =>
      if decide (index = len w) then ret true
      else if negb (bool_decide (0 ≤ r < rows) && bool_decide (0 ≤ c < cols))
      then ret false
      else
        x <- read_cell b r c ;;
        y <- lift (getitem w index) ;;
        if decide (x ≠ y) then ret false
        else
          seen <- visited_mem (r, c) ;;
          if seen : bool then ret false
          else
            visited_add (r, c) ;;;
            for_any deltas (λ '(dr, dc),
                let nr := r + dr in
                let nc := c + dc in
                dfs fuel b w rows cols nr nc (index + 1))
              (visited_remove (r, c) ;;; ret false)
  end.

(** [can_form_word_dfs]: the recursion of [dfs] is at most
    [len(word) + 1] deep, which is the fuel it is given. *)
Definition can_form_word_dfs (b : list (list char)) (w : word)
  : prog store bool :=
  let rows := grid_rows b in
  let cols := grid_cols b in
  first_char <- lift (getitem w 0) ;;
  for_any (range rows) (λ r,
      for_any (range cols) (λ c,
          x <- read_cell b r c ;;
          if decide (x = first_char) then
            visited_new ;;;
            dfs (S (length w)) b w rows cols r c 0
          else ret false)
        (ret false))
    (ret false).

(** [find_all_words] *)
Definition find_all_words (p : WordSearchProblem)
  : prog store (gset word) :=
  for_in (dictionary p) (λ w result,
    found <- can_form_word_dfs (board p) w ;;
    if found : bool then ret ({[w]} ∪ result) else ret result) ∅.

End word_search.
End WordSearch.

(** ** Vocabulary of the statements *)

#[global] Instance rectangular_dec {A} (g : list (list A)) :
  Decision (rectangular g).
Proof. unfold rectangular. apply _. Defined.

(** Every entry of a stretch of the access log lies inside
    [0, rows) x [0, cols). *)
Definition accesses_within (rows cols : Z) (l : list access) : Prop :=
  Forall (λ a, in_bounds rows cols (access_cell a)) l.

#[global] Instance in_bounds_dec rows cols p : Decision (in_bounds rows cols p).
Proof. unfold in_bounds. apply _. Defined.

#[global] Instance accesses_within_dec rows cols l :
  Decision (accesses_within rows cols l).
Proof. unfold accesses_within. apply _. Defined.

(** The log [new] is the log [old] with entries added, all inside the
    bounds. *)
Definition extends_within (rows cols : Z) (old new : list access) : Prop :=
  ∃ d, new = d ++ old ∧ accesses_within rows cols d.

(** [rows] and [cols] are the dimensions of the rectangular grid [g]. *)
Definition grid_of {A} (g : list (list A)) (rows cols : Z) : Prop :=
  rectangular g ∧ rows = grid_rows g ∧ cols = grid_cols g.

(** A run agrees with a run that was given more fuel, unless it ran out
    of its own. *)
Definition fuel_le {S A} (res res' : outcome A * S) : Prop :=
  res.1 = OutOfFuel ∨ res = res'.

(** Every character of the grid is a code point below the last one, so
    that its successor exists. *)
Definition chars_below_last (g : list (list LongestPath.char)) : Prop :=
  Forall (Forall (λ ch, 0 ≤ ch < LongestPath.max_code_point)) g.

#[global] Instance chars_below_last_dec g : Decision (chars_below_last g).
Proof. unfold chars_below_last. apply _. Defined.

(** The cell of a grid at a coordinate inside it. *)
Definition color_at {A} (g : list (list A)) (x : cell) : option A :=
  if bool_decide (0 ≤ x.1 ∧ 0 ≤ x.2)
  then g !! Z.to_nat x.1 ≫= (.!! Z.to_nat x.2)
  else None.

(** Neighbours along the axes. *)
Definition adjacent4 (x y : cell) : Prop :=
  Z.abs (x.1 - y.1) + Z.abs (x.2 - y.2) = 1.

Definition neighbours4 (x : cell) : list cell :=
  [(x.1 + 0, x.2 + 1); (x.1 + 0, x.2 + -1);
   (x.1 + 1, x.2 + 0); (x.1 + -1, x.2 + 0)].

(** [reach g target start x]: the cell [x] is connected to [start] by a
    chain of axis neighbours, every cell of the chain (its two ends
    included) holding [target] in [g]. *)
Inductive reach {A} (g : list (list A)) (target : A) (start : cell)
  : cell → Prop :=
  | reach_start :
      color_at g start = Some target → reach g target start start
  | reach_step x y :
      reach g target start x → adjacent4 x y →
      color_at g y = Some target → reach g target start y.

(** Neighbours along the axes or the diagonals, and their list in the
    order of the eight [deltas]. *)
Definition adjacent8 (x y : cell) : Prop :=
  Z.max (Z.abs (x.1 - y.1)) (Z.abs (x.2 - y.2)) = 1.

Definition neighbours8 (x : cell) : list cell :=
  [(x.1 + -1, x.2 + -1); (x.1 + -1, x.2 + 0); (x.1 + -1, x.2 + 1);
   (x.1 + 0, x.2 + -1); (x.1 + 0, x.2 + 1);
   (x.1 + 1, x.2 + -1); (x.1 + 1, x.2 + 0); (x.1 + 1, x.2 + 1)].

(** [chain g x rest]: [x] followed by [rest] is a path of cells of [g]
    in which each cell is a neighbour of the one before it and holds the
    code point after that one's. *)
Inductive chain (g : list (list LongestPath.char)) : cell → list cell → Prop :=
  | chain_end x : is_Some (color_at g x) → chain g x []
  | chain_step x y rest ch :
      color_at g x = Some ch → adjacent8 x y →
      color_at g y = Some (ch + 1) → chain g y rest →
      chain g x (y :: rest).

(** [spells b w path]: [path] has one cell of [b] per letter of [w],
    each holding its letter and each a neighbour of the one before it. *)
Fixpoint spells {A} (b : list (list A)) (w : list A) (path : list cell)
  : Prop :=
  match w, path with
  | [], [] => True
  | a :: w', x :: path' =>
      color_at b x = Some a ∧
      match path' with [] => True | y :: _ => adjacent8 x y end ∧
      spells b w' path'
  | _, _ => False
  end.

(** The word can be traced on the board using no cell twice. *)
Definition traceable {A} (b : list (list A)) (w : list A) : Prop :=
  ∃ path, NoDup path ∧ spells b w path.

(** ** The invariant of the flood-fill loop *)

(** All the coordinates inside [0, rows) x [0, cols). *)
Definition cells (rows cols : Z) : list cell :=
  r ← range rows; c ← range cols; [(r, c)].

(** The set of the cells of [g] that hold [v]. *)
Definition cells_holding {A} `{EqDecision A} (g : list (list A)) (v : A)
  : gset cell :=
  list_to_set (filter (λ z, color_at g z = Some v)
                 (cells (grid_rows g) (grid_cols g))).

(** A cell that held the target colour in [g0] and holds the
    replacement colour in [g]. *)
Definition painted {A} (g0 g : list (list A)) (T R : A) (z : cell) : Prop :=
  color_at g0 z = Some T ∧ color_at g z = Some R.

(** The state of the loop, between two iterations: [g0] is the matrix
    [flood_fill_dfs] was given, [g] the matrix now. *)
Record flood_inv {A} (g0 g : list (list A)) (T R : A) (start : cell)
    (stack : list cell) : Prop := FloodInv {
  inv_shape : rectangular g ∧ grid_rows g = grid_rows g0 ∧
              grid_cols g = grid_cols g0;
  inv_cells : ∀ z, color_at g z = color_at g0 z ∨
                   (painted g0 g T R z ∧ reach g0 T start z);
  inv_stack : ∀ z, z ∈ stack → painted g0 g T R z;
  inv_closed : ∀ x y, painted g0 g T R x → adjacent4 x y →
                      color_at g0 y = Some T →
                      painted g0 g T R y ∨ x ∈ stack;
  inv_start : painted g0 g T R start
}.

(** ** The visited set of one word-search attempt *)

Section word_search_calls.
Import WordSearch.
Context {char : Type} `{Countable char}.




End word_search_calls.

(** ** The scenarios of the specification *)

Definition chars (s : string) : list ascii := String.list_ascii_of_string s.

(** The word-search scenario: the grid [[C,A,T],[A,T,C]] and the
    dictionary CAT, ACT, DOG. *)
Definition scenario_board : list (list ascii) := [chars "CAT"; chars "ATC"].
Definition scenario_dictionary : list (list ascii) :=
  [chars "CAT"; chars "ACT"; chars "DOG"].

(** The flood-fill input on which the replacement colour is the target
    colour and the start cell has a neighbour of that colour. *)
Definition pair_matrix : list (list string) := [["X"; "X"]].
Definition pair_problem : FloodFill.FloodFillProblem :=
  FloodFill.init pair_matrix (0, 0) "X" "X".

(** The longest-path input whose only cell holds the last code point. *)
Definition last_char_problem : LongestPath.LongestConsecutivePathProblem :=
  LongestPath.init [[LongestPath.max_code_point]] LongestPath.max_code_point.

(** The longest-path scenario: the grid [[A,B],[D,C]]. *)
Definition abcd_matrix : list (list LongestPath.char) := [[65; 66]; [68; 67]].

(** The flood-fill input whose start coordinate is (-1, -1). *)
Definition negative_start_problem : FloodFill.FloodFillProblem :=
  FloodFill.init [["X"]] (-1, -1) "X" "C".

(** The flood-fill scenario: a 3 x 3 matrix of X, filled with C from its
    centre. *)
Definition all_X : list (list string) :=
  [["X"; "X"; "X"]; ["X"; "X"; "X"]; ["X"; "X"; "X"]].
Definition all_C : list (list string) :=
  [["C"; "C"; "C"]; ["C"; "C"; "C"]; ["C"; "C"; "C"]].

(** * Properties *)

(** ** The monad and the loop combinators *)

Lemma bind_Ok {S A B} (m : prog S A) (k : A → prog S B) s a s' :
  m s = (Ok a, s') → bind m k s = k a s'.
Proof. intros Hm. unfold bind. by rewrite Hm. Qed.

Lemma elem_of_rev {A} (l : list A) x : x ∈ rev l ↔ x ∈ l.
Proof. rewrite !list_elem_of_In. symmetry. apply in_rev. Qed.

Section loops.
Context {S X B : Type}.

(** A loop invariant indexed by the elements already processed; an
    exception or the end of the fuel in the body leaves the loop. *)
Lemma for_in_ind (I : list X → B → S → Prop) (Q : outcome B * S → Prop)
    (l : list X) (body : X → B → prog S B) :
  (∀ pre x suf acc s, l = pre ++ x :: suf → I pre acc s →
     match body x acc s with
     | (Ok acc', s') => I (pre ++ [x]) acc' s'
     | (Raise e, s') => Q (Raise e, s')
     | (OutOfFuel, s') => Q (OutOfFuel, s')
     end) →
  (∀ acc s, I l acc s → Q (Ok acc, s)) →
  ∀ acc s, I [] acc s → Q (for_in l body acc s).
Proof.
  intros Hbody Hend.
  assert (Hgen : ∀ suf pre acc s, l = pre ++ suf → I pre acc s →
                   Q (for_in suf body acc s)).
  { induction suf as [|x suf IH]; intros pre acc s Hl HI; simpl.
    - rewrite app_nil_r in Hl. subst pre. by apply Hend.
    - unfold bind. specialize (Hbody pre x suf acc s Hl HI).
      destruct (body x acc s) as [[acc'|e|] s']; [|done..].
      apply (IH (pre ++ [x])); [|done]. by rewrite <- app_assoc. }
  intros acc s HI. by apply (Hgen l []).
Qed.

Lemma for_any_ind (I : list X → S → Prop) (Q : outcome bool * S → Prop)
    (l : list X) (body : X → prog S bool) (orelse : prog S bool) :
  (∀ pre x suf s, l = pre ++ x :: suf → I pre s →
     match body x s with
     | (Ok false, s') => I (pre ++ [x]) s'
     | other => Q other
     end) →
  (∀ s, I l s → Q (orelse s)) →
  ∀ s, I [] s → Q (for_any l body orelse s).
Proof.
  intros Hbody Hend.
  assert (Hgen : ∀ suf pre s, l = pre ++ suf → I pre s →
                   Q (for_any suf body orelse s)).
  { induction suf as [|x suf IH]; intros pre s Hl HI; simpl.
    - rewrite app_nil_r in Hl. subst pre. by apply Hend.
    - unfold bind. specialize (Hbody pre x suf s Hl HI).
      destruct (body x s) as [[[]|e|] s']; [done| |done..].
      apply (IH (pre ++ [x])); [|done]. by rewrite <- app_assoc. }
  intros s HI. by apply (Hgen l []).
Qed.
End loops.

Lemma fuel_le_refl {S A} (res : outcome A * S) : fuel_le res res.
Proof. by right. Qed.

Lemma bind_fuel_le {S A B} (m m' : prog S A) (k k' : A → prog S B) s :
  fuel_le (m s) (m' s) → (∀ a s', fuel_le (k a s') (k' a s')) →
  fuel_le (bind m k s) (bind m' k' s).
Proof.
  intros [Hm|Hm] Hk; unfold bind.
  - left. by destruct (m s) as [[a|e|] s'].
  - rewrite <- Hm. destruct (m s) as [[a|e|] s']; [apply Hk|by right..].
Qed.

Lemma for_in_fuel_le {S X B} (l : list X) (body body' : X → B → prog S B) :
  (∀ x acc s, x ∈ l → fuel_le (body x acc s) (body' x acc s)) →
  ∀ acc s, fuel_le (for_in l body acc s) (for_in l body' acc s).
Proof.
  induction l as [|x l IH]; intros Hbody acc s; simpl; [by right|].
  apply bind_fuel_le; [apply Hbody; by left|].
  intros acc' s'. apply IH. intros y acc'' s'' Hy. apply Hbody. by right.
Qed.

(** ** Python subscripts *)

Lemma py_index_nonneg {A} (l : list A) i :
  0 ≤ i < len l → py_index l i = Some (Z.to_nat i).
Proof. intros Hi. unfold py_index. by rewrite bool_decide_eq_true_2. Qed.

Lemma getitem_nonneg {A} (l : list A) i :
  0 ≤ i < len l → ∃ x, l !! Z.to_nat i = Some x ∧ getitem l i = Ok x.
Proof.
  intros Hi. unfold getitem. rewrite py_index_nonneg by done. simpl.
  destruct (lookup_lt_is_Some_2 l (Z.to_nat i)) as [x Hx].
  { unfold len in Hi. lia. }
  exists x. by rewrite Hx.
Qed.

Lemma getitem_nil {A} i : getitem ([] : list A) i = Raise IndexError.
Proof.
  unfold getitem, py_index, len. simpl.
  repeat case_bool_decide; try lia; done.
Qed.

(** Inside a rectangular grid a subscript pair denotes a cell. *)
Lemma grid_get_in_bounds {A} (g : list (list A)) r c :
  rectangular g → in_bounds (grid_rows g) (grid_cols g) (r, c) →
  ∃ row x, g !! Z.to_nat r = Some row ∧ row !! Z.to_nat c = Some x ∧
           grid_get g r c = Ok x.
Proof.
  intros Hg [Hr Hc]. simpl in *. unfold grid_get.
  destruct (getitem_nonneg g r Hr) as (row & Hrow & ->).
  assert (len row = grid_cols g) as Hlen.
  { by apply (Forall_lookup_1 _ _ _ _ Hg Hrow). }
  destruct (getitem_nonneg row c) as (x & Hx & ->); [lia|].
  by exists row, x.
Qed.

(** ** Cells of a rectangular grid *)

Lemma color_at_Some {A} (g : list (list A)) x v :
  color_at g x = Some v ↔
  0 ≤ x.1 ∧ 0 ≤ x.2 ∧
  ∃ row, g !! Z.to_nat x.1 = Some row ∧ row !! Z.to_nat x.2 = Some v.
Proof.
  unfold color_at. case_bool_decide as Hx.
  - destruct (g !! Z.to_nat x.1) as [row|] eqn:Hrow; simpl.
    + split; [intros Hv; split_and!; [lia..|by exists row] |].
      by intros (_ & _ & row' & [= <-] & Hv).
    + split; [done | by intros (_ & _ & row' & [=] & _)].
  - split; [done | intros (? & ? & _); lia].
Qed.

Lemma grid_cols_lookup {A} (g : list (list A)) i row :
  rectangular g → g !! i = Some row → len row = grid_cols g.
Proof. intros Hg Hrow. by apply (Forall_lookup_1 _ _ _ _ Hg Hrow). Qed.

Lemma color_at_in_bounds {A} (g : list (list A)) x :
  rectangular g →
  is_Some (color_at g x) ↔ in_bounds (grid_rows g) (grid_cols g) x.
Proof.
  intros Hg. split.
  - intros [v (H1 & H2 & row & Hrow & Hv)%color_at_Some].
    pose proof (grid_cols_lookup g _ row Hg Hrow) as Hlen.
    apply lookup_lt_Some in Hrow, Hv.
    unfold in_bounds, grid_rows, len in *. lia.
  - intros Hin. destruct x as [r c].
    destruct (grid_get_in_bounds g r c Hg Hin) as (row & v & Hrow & Hv & _).
    destruct Hin as [Hr Hc]. simpl in *.
    exists v. apply color_at_Some. split_and!; simpl; [lia..|by exists row].
Qed.

Lemma color_at_grid_get {A} (g : list (list A)) x v :
  color_at g x = Some v → grid_get g x.1 x.2 = Ok v.
Proof.
  intros (H1 & H2 & row & Hrow & Hv)%color_at_Some.
  unfold grid_get.
  destruct (getitem_nonneg g x.1) as (row' & Hrow' & ->).
  { apply lookup_lt_Some in Hrow. unfold len. lia. }
  assert (row' = row) as -> by congruence.
  destruct (getitem_nonneg row x.2) as (v' & Hv' & ->).
  { apply lookup_lt_Some in Hv. unfold len. lia. }
  congruence.
Qed.

Lemma grid_get_color_at {A} (g : list (list A)) x v :
  rectangular g → in_bounds (grid_rows g) (grid_cols g) x →
  grid_get g x.1 x.2 = Ok v → color_at g x = Some v.
Proof.
  intros Hg Hin Hget.
  destruct (proj2 (color_at_in_bounds g x Hg) Hin) as [v' Hv'].
  rewrite (color_at_grid_get g x v' Hv') in Hget. congruence.
Qed.

(** Storing into a cell inside a rectangular grid changes that cell
    and nothing else, the shape included. *)
Lemma grid_set_spec {A} (g : list (list A)) y v :
  rectangular g → in_bounds (grid_rows g) (grid_cols g) y →
  ∃ g', grid_set g y.1 y.2 v = Ok g' ∧ rectangular g' ∧
        grid_rows g' = grid_rows g ∧ grid_cols g' = grid_cols g ∧
        ∀ z, color_at g' z = if decide (z = y) then Some v else color_at g z.
Proof.
  intros Hg Hin.
  destruct (proj2 (color_at_in_bounds g y Hg) Hin)
    as [v0 (H1 & H2 & row & Hrow & Hv0)%color_at_Some].
  pose proof (lookup_lt_Some _ _ _ Hrow) as Hi.
  pose proof (lookup_lt_Some _ _ _ Hv0) as Hj.
  destruct Hin as [Hr Hc].
  set (i := Z.to_nat y.1) in *. set (j := Z.to_nat y.2) in *.
  exists (<[i := <[j := v]> row]> g).
  assert (grid_rows (<[i := <[j := v]> row]> g) = grid_rows g) as Hrows.
  { unfold grid_rows, len. by rewrite length_insert. }
  assert (grid_cols (<[i := <[j := v]> row]> g) = grid_cols g) as Hcols.
  { unfold grid_cols. rewrite Hrows. case_bool_decide; [|done].
    destruct (decide (i = 0%nat)) as [->|Hne].
    - rewrite list_lookup_insert_eq by done. rewrite Hrow.
      unfold len. by rewrite length_insert.
    - by rewrite list_lookup_insert_ne. }
  split_and!; [|  |done..|].
  - unfold grid_set. rewrite py_index_nonneg by done. fold i. rewrite Hrow.
    rewrite py_index_nonneg; [done|].
    rewrite (grid_cols_lookup g i row Hg Hrow). done.
  - apply Forall_forall. intros row' Hrow'. rewrite Hcols.
    apply list_elem_of_lookup in Hrow' as [k Hk].
    destruct (decide (k = i)) as [->|Hne].
    + rewrite list_lookup_insert_eq in Hk by done. injection Hk as <-.
      unfold len. rewrite length_insert.
      apply (grid_cols_lookup g i row Hg Hrow).
    + rewrite list_lookup_insert_ne in Hk by done.
      by apply (grid_cols_lookup g k row' Hg).
  - intros z. destruct (decide (z = y)) as [->|Hne].
    + apply color_at_Some. split_and!; [done..|].
      exists (<[j := v]> row). fold i j.
      by rewrite !list_lookup_insert_eq.
    + unfold color_at. case_bool_decide as Hz; [|done].
      destruct (decide (Z.to_nat z.1 = i)) as [Hzi|Hzi].
      * rewrite Hzi, list_lookup_insert_eq, Hrow by done. simpl.
        rewrite list_lookup_insert_ne; [done|].
        intros Hzj. apply Hne. destruct z, y. simpl in *.
        f_equal; lia.
      * by rewrite list_lookup_insert_ne.
Qed.

(** Storing the value a cell already holds changes nothing. *)
Lemma grid_set_id {A} (g : list (list A)) y v :
  color_at g y = Some v → grid_set g y.1 y.2 v = Ok g.
Proof.
  intros (H1 & H2 & row & Hrow & Hv)%color_at_Some.
  pose proof (lookup_lt_Some _ _ _ Hrow) as Hi.
  pose proof (lookup_lt_Some _ _ _ Hv) as Hj.
  unfold grid_set.
  rewrite py_index_nonneg by (unfold len; lia). rewrite Hrow.
  rewrite py_index_nonneg by (unfold len; lia).
  by rewrite (list_insert_id row _ v Hv), (list_insert_id g _ row Hrow).
Qed.

Lemma adjacent4_sym x y : adjacent4 x y → adjacent4 y x.
Proof. unfold adjacent4. lia. Qed.

Lemma adjacent4_neighbours x y : adjacent4 x y ↔ y ∈ neighbours4 x.
Proof.
  destruct x as [r c], y as [r' c']. unfold adjacent4, neighbours4. simpl.
  rewrite !elem_of_cons, elem_of_nil.
  split.
  - intros Hadj.
    assert ((r' = r ∧ c' = c + 1) ∨ (r' = r ∧ c' = c - 1) ∨
            (r' = r + 1 ∧ c' = c) ∨ (r' = r - 1 ∧ c' = c)) as Hcase by lia.
    destruct Hcase as [[-> ->]|[[-> ->]|[[-> ->]|[-> ->]]]].
    + left. f_equal; lia.
    + right; left. f_equal; lia.
    + right; right; left. f_equal; lia.
    + right; right; right; left. f_equal; lia.
  - intros [[= -> ->]|[[= -> ->]|[[= -> ->]|[[= -> ->]|[]]]]]; lia.
Qed.

Lemma elem_of_range n i : i ∈ range n ↔ 0 ≤ i < n.
Proof.
  unfold range. rewrite list_elem_of_fmap. split.
  - intros (k & -> & Hk). apply elem_of_seq in Hk. lia.
  - intros Hi. exists (Z.to_nat i). split; [lia|]. apply elem_of_seq. lia.
Qed.

Lemma elem_of_cells rows cols z : z ∈ cells rows cols ↔ in_bounds rows cols z.
Proof.
  unfold cells, in_bounds. rewrite list_elem_of_bind. split.
  - intros (r & (c & ->%list_elem_of_singleton & Hc)%list_elem_of_bind & Hr).
    apply elem_of_range in Hr, Hc. done.
  - intros [Hr Hc]. exists z.1. split; [|by apply elem_of_range].
    apply list_elem_of_bind. exists z.2.
    split; [|by apply elem_of_range]. destruct z. by left.
Qed.

Lemma elem_of_cells_holding {A} `{EqDecision A} (g : list (list A)) v z :
  rectangular g → z ∈ cells_holding g v ↔ color_at g z = Some v.
Proof.
  intros Hg. unfold cells_holding.
  rewrite elem_of_list_to_set, list_elem_of_filter, elem_of_cells.
  split; [tauto|]. intros Hz. split; [done|].
  apply color_at_in_bounds; [done | by eexists].
Qed.

Lemma NoDup_neighbours4 x : NoDup (neighbours4 x).
Proof.
  destruct x as [r c]. unfold neighbours4. simpl.
  repeat (apply NoDup_cons; split;
          [rewrite ?elem_of_cons, elem_of_nil; intros Hin;
           repeat (destruct Hin as [Heq|Hin]; [injection Heq; lia|]); done|]).
  apply NoDup_nil_2.
Qed.

(** The variable of a [for ... in range(n)] loop is inside the range:
    [Hrange] says where in the range the iteration stands. *)
Ltac in_range Hrange :=
  apply elem_of_range; rewrite Hrange, elem_of_app, elem_of_cons; tauto.

(** ** The access log *)

Lemma extends_within_refl rows cols l : extends_within rows cols l l.
Proof. exists []. split; [done | constructor]. Qed.

Lemma extends_within_trans rows cols l1 l2 l3 :
  extends_within rows cols l1 l2 → extends_within rows cols l2 l3 →
  extends_within rows cols l1 l3.
Proof.
  intros (d1 & -> & H1) (d2 & -> & H2). exists (d2 ++ d1).
  split; [by rewrite app_assoc | by apply Forall_app].
Qed.

Lemma extends_within_cons rows cols l a :
  in_bounds rows cols (access_cell a) → extends_within rows cols l (a :: l).
Proof. intros Ha. exists [a]. split; [done | by apply Forall_singleton]. Qed.

(** ** Flood fill *)

Section flood_fill_facts.
Import FloodFill.
Context {Color : Type} `{EqDecision Color}.
Implicit Types (p : @FloodFillProblem Color) (s : @store Color).

Lemma read_cell_eq s r c :
  read_cell r c s = (grid_get (matrix s) r c,
                     Store (matrix s) (Read r c :: log s)).
Proof. done. Qed.

(** The neighbour test of [actions]: matrix untouched, at most one
    read, and that one inside the bounds. *)
Lemma actions_safe p state s :
  matrix (actions p state s).2 = matrix s ∧
  extends_within (rows p) (cols p) (log s) (log (actions p state s).2) ∧
  ∀ l, (actions p state s).1 = Ok l →
       Forall (in_bounds (rows p) (cols p)) l.
Proof.
  destruct state as [r c]. unfold actions.
  apply (for_in_ind
    (λ _ acc s', matrix s' = matrix s ∧
       extends_within (rows p) (cols p) (log s) (log s') ∧
       Forall (in_bounds (rows p) (cols p)) acc)
    (λ res, matrix res.2 = matrix s ∧
       extends_within (rows p) (cols p) (log s) (log res.2) ∧
       ∀ l, res.1 = Ok l → Forall (in_bounds (rows p) (cols p)) l)).
  - intros pre [dr dc] suf acc s' _ (Hm & Hlog & Hacc).
    destruct (bool_decide (0 ≤ r + dr < rows p)) eqn:Hr;
      destruct (bool_decide (0 ≤ c + dc < cols p)) eqn:Hc; simpl;
      try done.
    apply bool_decide_eq_true in Hr, Hc.
    assert (in_bounds (rows p) (cols p) (r + dr, c + dc)) as Hin by done.
    unfold bind. rewrite read_cell_eq.
    assert (extends_within (rows p) (cols p) (log s)
              (Read (r + dr) (c + dc) :: log s')) as Hlog'.
    { eapply extends_within_trans; [done|]. by apply extends_within_cons. }
    destruct (grid_get (matrix s') (r + dr) (c + dc)) as [x|e|]; simpl;
      [|done..].
    destruct (decide (x = target_color p)); simpl; [|done].
    split_and!; [done..|]. apply Forall_app. split; [done|]. by apply Forall_singleton.
  - intros acc s' (Hm & Hlog & Hacc). simpl. split_and!; [done..|].
    by intros l [= <-].
  - split_and!; [done | apply extends_within_refl | constructor].
Qed.

(** C8: if the start cell's colour is not the target colour,
    [flood_fill_dfs] returns at once and the matrix is left as it was,
    whatever that colour is (the replacement colour or any other). *)
Theorem flood_fill_dfs_start_mismatch p s fuel x :
  grid_get (matrix s) (initial p).1 (initial p).2 = Ok x →
  x ≠ target_color p →
  (flood_fill_dfs fuel p s).1 = Ok tt ∧
  matrix (flood_fill_dfs fuel p s).2 = matrix s.
Proof.
  intros Hx Hne. unfold flood_fill_dfs.
  destruct (initial p) as [r c]. simpl in Hx.
  unfold bind. rewrite read_cell_eq, Hx.
  by rewrite decide_True.
Qed.

(** In a rectangular grid [actions] returns the axis neighbours that
    hold the target colour, in the order of [deltas]. *)
Lemma actions_rect p x s :
  rectangular (matrix s) →
  rows p = grid_rows (matrix s) → cols p = grid_cols (matrix s) →
  (actions p x s).1 =
    Ok (filter (λ y, color_at (matrix s) y = Some (target_color p))
          (neighbours4 x)).
Proof.
  intros Hg Hrows Hcols. destruct x as [r c]. unfold actions.
  set (P := λ y : cell, color_at (matrix s) y = Some (target_color p)).
  apply (for_in_ind
    (λ pre acc s', matrix s' = matrix s ∧
       acc = filter P ((λ d, (r + d.1, c + d.2)) <$> pre))
    (λ res, res.1 = Ok (filter P (neighbours4 (r, c))))).
  - intros pre [dr dc] suf acc s' _ (Hm & ->).
    rewrite fmap_app, filter_app. simpl.
    destruct (bool_decide (0 ≤ r + dr < rows p) &&
              bool_decide (0 ≤ c + dc < cols p)) eqn:Hb; simpl.
    + apply andb_true_iff in Hb as [Hr%bool_decide_eq_true
                                      Hc%bool_decide_eq_true].
      assert (in_bounds (grid_rows (matrix s)) (grid_cols (matrix s))
                (r + dr, c + dc)) as Hin.
      { split; simpl; congruence. }
      destruct (proj2 (color_at_in_bounds _ _ Hg) Hin) as [v Hv].
      pose proof (color_at_grid_get _ _ _ Hv) as Hget. simpl in Hget.
      unfold bind. rewrite read_cell_eq, Hm, Hget. simpl.
      destruct (decide (v = target_color p)) as [->|Hne]; simpl;
        (split; [done|]).
      * by rewrite filter_cons_True.
      * rewrite filter_cons_False, app_nil_r; [done|].
        unfold P. congruence.
    + split; [done|].
      rewrite filter_cons_False, app_nil_r; [done|].
      intros HP.
      assert (in_bounds (grid_rows (matrix s)) (grid_cols (matrix s))
                (r + dr, c + dc)) as [Hr Hc].
      { apply color_at_in_bounds; [done|]. by eexists. }
      simpl in *. rewrite <- Hrows, <- Hcols in *.
      rewrite !bool_decide_eq_true_2 in Hb by done. done.
  - by intros acc s' (_ & ->).
  - done.
Qed.

Lemma result_Ok p x y s g' :
  grid_set (matrix s) y.1 y.2 (replacement_color p) = Ok g' →
  result p x y s = (Ok y, Store g' (Write y.1 y.2 :: log s)).
Proof.
  intros Hset. destruct y as [nr nc]. unfold result.
  erewrite bind_Ok; [done|]. unfold write_cell. simpl in *. by rewrite Hset.
Qed.

(** The [for] loop of [flood_fill_dfs]: each child is painted and
    pushed. *)
Lemma paint_children p x children stack s :
  rectangular (matrix s) →
  rows p = grid_rows (matrix s) → cols p = grid_cols (matrix s) →
  Forall (in_bounds (rows p) (cols p)) children →
  ∃ s',
    for_in children (λ '(nr, nc) stack,
        result p x (nr, nc) ;;; ret ((nr, nc) :: stack)) stack s
      = (Ok (rev children ++ stack), s') ∧
    rectangular (matrix s') ∧
    rows p = grid_rows (matrix s') ∧ cols p = grid_cols (matrix s') ∧
    extends_within (rows p) (cols p) (log s) (log s') ∧
    ∀ z, color_at (matrix s') z =
           if decide (z ∈ children) then Some (replacement_color p)
           else color_at (matrix s) z.
Proof.
  intros Hg Hrows Hcols Hall.
  revert stack s Hg Hrows Hcols.
  induction Hall as [|[nr nc] children Hin _ IH];
    intros stack s Hg Hrows Hcols; cbn [for_in].
  - exists s. split_and!; [done..|apply extends_within_refl|].
    by intros z.
  - rewrite Hrows, Hcols in Hin.
    destruct (grid_set_spec (matrix s) (nr, nc) (replacement_color p) Hg Hin)
      as (g' & Hset & Hg' & Hr' & Hc' & Hcol).
    erewrite bind_Ok; [|erewrite bind_Ok; [|by apply result_Ok]; done].
    cbn [fst snd].
    destruct (IH ((nr, nc) :: stack) (Store g' (Write nr nc :: log s)))
      as (s' & -> & ? & ? & ? & Hlog & Hcol'); simpl; [done|congruence..|].
    exists s'. split_and!; [|done..| |].
    + by rewrite <- app_assoc.
    + eapply extends_within_trans; [|done]. apply extends_within_cons.
      by rewrite Hrows, Hcols.
    + intros z. rewrite Hcol', Hcol. simpl.
      destruct (decide (z ∈ children)) as [Hz|Hz],
               (decide (z = (nr, nc))) as [Hz'|Hz'];
        case_decide as Hz''; try done;
        exfalso; rewrite elem_of_cons in Hz''; tauto.
Qed.

(** One iteration of the [while] loop. *)
Lemma while_stack_step p fuel x stack s :
  rectangular (matrix s) →
  rows p = grid_rows (matrix s) → cols p = grid_cols (matrix s) →
  let children :=
    filter (λ y, color_at (matrix s) y = Some (target_color p))
      (neighbours4 x) in
  ∃ s',
    while_stack (S fuel) p (x :: stack) s
      = while_stack fuel p (rev children ++ stack) s' ∧
    rectangular (matrix s') ∧
    rows p = grid_rows (matrix s') ∧ cols p = grid_cols (matrix s') ∧
    extends_within (rows p) (cols p) (log s) (log s') ∧
    ∀ z, color_at (matrix s') z =
           if decide (z ∈ children) then Some (replacement_color p)
           else color_at (matrix s) z.
Proof.
  intros Hg Hrows Hcols children.
  destruct (actions_safe p x s) as (Hm & Hlog & Hin).
  pose proof (actions_rect p x s Hg Hrows Hcols) as Hact.
  fold children in Hact.
  destruct x as [cr cc]. cbn [while_stack]. unfold bind at 1.
  destruct (actions p (cr, cc) s) as [o s1]. cbn [fst snd] in *. subst o.
  destruct (paint_children p (cr, cc) children stack s1)
    as (s' & Hfor & ? & ? & ? & Hlog' & Hcol);
    [by rewrite Hm..| by apply Hin |].
  exists s'. unfold bind at 1. rewrite Hfor.
  split_and!; [done..| |].
  - by eapply extends_within_trans.
  - by rewrite <- Hm.
Qed.

(** With the replacement colour equal to the target colour painting
    changes nothing, so a popped cell with a neighbour of that colour
    pushes it, and the neighbour pushes the cell back: the stack never
    empties. *)
Lemma while_stack_same_color_loops p g0 fuel : ∀ stack s,
  replacement_color p = target_color p →
  rectangular (matrix s) →
  rows p = grid_rows (matrix s) → cols p = grid_cols (matrix s) →
  (∀ z, color_at (matrix s) z = color_at g0 z) →
  stack ≠ [] →
  Forall (λ x, color_at g0 x = Some (target_color p) ∧
               ∃ y, adjacent4 x y ∧ color_at g0 y = Some (target_color p))
    stack →
  (while_stack fuel p stack s).1 = OutOfFuel.
Proof.
  induction fuel as [|fuel IH]; intros stack s Hsame Hg Hrows Hcols Hg0 Hne Hall.
  - destruct stack as [|[cr cc] stack]; done.
  - destruct stack as [|x stack]; [done|].
    apply Forall_cons in Hall as [(Hx & y & Hadj & Hy) Hall].
    destruct (while_stack_step p fuel x stack s Hg Hrows Hcols)
      as (s' & -> & Hg' & Hrows' & Hcols' & _ & Hcol).
    set (children := filter _ _) in *.
    assert (∀ z, z ∈ children →
              color_at g0 z = Some (target_color p) ∧ adjacent4 x z)
      as Hchildren.
    { intros z [Hz Hin]%list_elem_of_filter.
      rewrite <- Hg0. split; [done|]. by apply adjacent4_neighbours. }
    assert (y ∈ children) as Hychild.
    { apply list_elem_of_filter. rewrite Hg0.
      split; [done|]. by apply adjacent4_neighbours. }
    apply IH; [done..| | |].
    + intros z. rewrite Hcol. case_decide as Hz; [|done].
      rewrite Hsame. symmetry. by apply Hchildren.
    + intros Hnil. apply app_eq_nil in Hnil as [Hnil _].
      apply (f_equal (@rev _)) in Hnil. rewrite rev_involutive in Hnil.
      rewrite Hnil in Hychild. by apply elem_of_nil in Hychild.
    + apply Forall_app. split; [|done].
      apply Forall_forall. intros z Hz.
      apply (proj1 (elem_of_rev _ _)) in Hz.
      destruct (Hchildren z Hz) as [Hzc Hzadj].
      split; [done|]. exists x. split; [by apply adjacent4_sym | done].
Qed.

Lemma flood_fill_dfs_same_color_loops p s nb fuel :
  replacement_color p = target_color p →
  rectangular (matrix s) →
  rows p = grid_rows (matrix s) → cols p = grid_cols (matrix s) →
  color_at (matrix s) (initial p) = Some (target_color p) →
  adjacent4 (initial p) nb →
  color_at (matrix s) nb = Some (target_color p) →
  (flood_fill_dfs fuel p s).1 = OutOfFuel.
Proof.
  intros Hsame Hg Hrows Hcols Hstart Hadj Hnb. unfold flood_fill_dfs.
  destruct (initial p) as [r c].
  pose proof (color_at_grid_get _ _ _ Hstart) as Hget.
  pose proof (grid_set_id _ _ _ Hstart) as Hset. cbn [fst snd] in *.
  erewrite bind_Ok; [|by rewrite read_cell_eq, Hget].
  rewrite decide_False by tauto.
  erewrite bind_Ok;
    [|by unfold write_cell; cbn [matrix]; rewrite Hsame, Hset].
  apply (while_stack_same_color_loops _ (matrix s)); try done.
  apply Forall_singleton. split; [done|]. by exists nb.
Qed.

(** C2: with the replacement colour equal to the target colour, a
    start cell of that colour and an axis neighbour of that colour,
    [flood_fill_dfs] never returns: every amount of fuel runs out. *)
Theorem flood_fill_dfs_same_color_diverges
    (m : list (list Color)) (start nb : cell) (T : Color) fuel log0 :
  rectangular m →
  color_at m start = Some T → adjacent4 start nb →
  color_at m nb = Some T →
  (flood_fill_dfs fuel (init m start T T) (Store m log0)).1 = OutOfFuel.
Proof.
  intros Hg Hstart Hadj Hnb.
  by apply (flood_fill_dfs_same_color_loops _ _ nb).
Qed.

(** The loop of [flood_fill_dfs] evaluates subscripts inside the bounds
    only, on every matrix and from every stack. *)
Lemma while_stack_log p fuel : ∀ stack s,
  extends_within (rows p) (cols p) (log s)
    (log (while_stack fuel p stack s).2).
Proof.
  induction fuel as [|fuel IH]; intros [|[cr cc] stack] s;
    try apply extends_within_refl.
  cbn [while_stack]. unfold bind at 1.
  destruct (actions_safe p (cr, cc) s) as (_ & Hlog & Hin).
  destruct (actions p (cr, cc) s) as [[children|e|] s1]; cbn [fst snd] in *;
    [|done..].
  specialize (Hin _ eq_refl). unfold bind at 1.
  match goal with
  | |- context [for_in children ?f stack s1] =>
      set (run := for_in children f stack s1)
  end.
  enough (extends_within (rows p) (cols p) (log s) (log run.2)) as Hfor.
  { destruct run as [[stack'|e|] s2]; cbn [fst snd] in *; [|done..].
    eapply extends_within_trans; [done | apply IH]. }
  unfold run.
  apply (for_in_ind
    (λ _ _ s', extends_within (rows p) (cols p) (log s) (log s'))
    (λ res, extends_within (rows p) (cols p) (log s) (log res.2)));
    [|done..].
  intros pre [nr nc] suf acc s' Hl Hs'.
  rewrite Forall_forall in Hin.
  assert (in_bounds (rows p) (cols p) (nr, nc)) as Hnr.
  { apply Hin. rewrite Hl, elem_of_app, elem_of_cons. tauto. }
  assert (extends_within (rows p) (cols p) (log s) (Write nr nc :: log s'))
    as Hwrite.
  { eapply extends_within_trans; [done|]. by apply extends_within_cons. }
  unfold bind, result, bind, write_cell.
  by destruct (grid_set (matrix s') nr nc (replacement_color p)).
Qed.

Lemma flood_fill_dfs_log p fuel s :
  in_bounds (rows p) (cols p) (initial p) →
  extends_within (rows p) (cols p) (log s)
    (log (flood_fill_dfs fuel p s).2).
Proof.
  intros Hin. unfold flood_fill_dfs. destruct (initial p) as [r c].
  assert (extends_within (rows p) (cols p) (log s) (Read r c :: log s))
    as Hread by by apply extends_within_cons.
  unfold bind at 1. rewrite read_cell_eq.
  destruct (grid_get (matrix s) r c) as [x|e|]; [|done..].
  destruct (decide (x ≠ target_color p)); [done|].
  unfold bind, write_cell. cbn [matrix log].
  assert (extends_within (rows p) (cols p) (log s)
            (Write r c :: Read r c :: log s)) as Hwrite.
  { eapply extends_within_trans; [done|]. by apply extends_within_cons. }
  destruct (grid_set (matrix s) r c (replacement_color p)) as [m'|e|];
    [|done..].
  eapply extends_within_trans; [|apply while_stack_log]. done.
Qed.

(** *** The loop with two different colours *)

Lemma painted_kept (g0 g g' : list (list Color)) T R
    (children : list cell) z :
  (∀ z, color_at g' z =
          if decide (z ∈ children) then Some R else color_at g z) →
  painted g0 g T R z → painted g0 g' T R z.
Proof.
  intros Hcol [Hz0 Hz]. split; [done|]. rewrite Hcol. by case_decide.
Qed.

(** One iteration keeps the invariant. *)
Lemma flood_inv_step (g0 g g' : list (list Color)) T R start x stack :
  T ≠ R →
  flood_inv g0 g T R start (x :: stack) →
  let children := filter (λ y, color_at g y = Some T) (neighbours4 x) in
  rectangular g' → grid_rows g' = grid_rows g → grid_cols g' = grid_cols g →
  (∀ z, color_at g' z =
          if decide (z ∈ children) then Some R else color_at g z) →
  flood_inv g0 g' T R start (rev children ++ stack).
Proof.
  intros HTR [Hshape Hcells Hstack Hclosed Hstart] children Hg' Hrows Hcols Hcol.
  assert (∀ z, z ∈ children →
            color_at g z = Some T ∧ color_at g0 z = Some T ∧
            adjacent4 x z ∧ reach g0 T start z) as Hchildren.
  { intros z [Hz Hadj%adjacent4_neighbours]%list_elem_of_filter.
    assert (color_at g0 z = Some T) as Hz0.
    { destruct (Hcells z) as [<-|[[_ Hz'] _]]; [done|congruence]. }
    split_and!; [done..|].
    assert (painted g0 g T R x) as [Hx0 Hx] by (apply Hstack; by left).
    destruct (Hcells x) as [Heq|[_ Hreach]]; [congruence|].
    by eapply reach_step. }
  assert (∀ z, painted g0 g T R z → painted g0 g' T R z) as Hkept.
  { intros z. by apply (painted_kept g0 g g' T R children). }
  assert (∀ z, z ∈ children → painted g0 g' T R z) as Hnew.
  { intros z Hz. destruct (Hchildren z Hz) as (_ & Hz0 & _).
    split; [done|]. rewrite Hcol. by rewrite decide_True. }
  destruct Hshape as (_ & Hrows0 & Hcols0).
  split.
  - split_and!; [done|congruence..].
  - intros z. destruct (decide (z ∈ children)) as [Hz|Hz].
    + right. split; [by apply Hnew | by apply Hchildren].
    + destruct (Hcells z) as [Heq|[Hp Hreach]].
      * left. rewrite Hcol. by rewrite decide_False.
      * right. split; [by apply Hkept | done].
  - intros z Hz. apply elem_of_app in Hz as [Hz|Hz].
    + apply (proj1 (elem_of_rev _ _)) in Hz. by apply Hnew.
    + apply Hkept, Hstack. by right.
  - intros a y Ha Hadj Hy0.
    destruct (decide (a ∈ children)) as [Hach|Hach].
    { right. apply elem_of_app. left. by apply elem_of_rev. }
    assert (painted g0 g T R a) as Ha'.
    { destruct Ha as [Ha0 Ha]. split; [done|].
      rewrite Hcol in Ha. by rewrite decide_False in Ha. }
    destruct (Hclosed a y Ha' Hadj Hy0) as [Hy|Hin]; [left; by apply Hkept|].
    apply elem_of_cons in Hin as [->|Hin].
    + left. destruct (Hcells y) as [Heq|[Hp _]]; [|by apply Hkept].
      apply Hnew. apply list_elem_of_filter.
      split; [congruence | by apply adjacent4_neighbours].
    + right. apply elem_of_app. by right.
  - by apply Hkept.
Qed.

(** One iteration paints as many target cells as it pushes. *)
Lemma flood_measure_step (g g' : list (list Color)) T R x :
  T ≠ R → rectangular g → rectangular g' →
  let children := filter (λ y, color_at g y = Some T) (neighbours4 x) in
  (∀ z, color_at g' z =
          if decide (z ∈ children) then Some R else color_at g z) →
  (size (cells_holding g' T) + length children = size (cells_holding g T))%nat.
Proof.
  intros HTR Hg Hg' children Hcol.
  assert (list_to_set children ⊆ cells_holding g T) as Hsub.
  { intros z Hz%elem_of_list_to_set. apply elem_of_cells_holding; [done|].
    by apply list_elem_of_filter in Hz as [Hz _]. }
  assert (cells_holding g' T = cells_holding g T ∖ list_to_set children)
    as ->.
  { apply set_eq. intros z.
    rewrite elem_of_difference, elem_of_list_to_set.
    rewrite !elem_of_cells_holding by done. rewrite Hcol.
    case_decide; [|tauto]. split; [congruence|tauto]. }
  rewrite size_difference by done.
  rewrite size_list_to_set by apply NoDup_filter, NoDup_neighbours4.
  apply subseteq_size in Hsub.
  rewrite size_list_to_set in Hsub by apply NoDup_filter, NoDup_neighbours4.
  lia.
Qed.

(** With different colours the loop ends, and it ends in the invariant
    with an empty stack. *)
Lemma while_stack_correct p (g0 : list (list Color)) start fuel : ∀ stack s,
  target_color p ≠ replacement_color p →
  rows p = grid_rows g0 → cols p = grid_cols g0 →
  flood_inv g0 (matrix s) (target_color p) (replacement_color p) start stack →
  (2 * size (cells_holding (matrix s) (target_color p)) + length stack
     ≤ fuel)%nat →
  ∃ s', while_stack fuel p stack s = (Ok tt, s') ∧
        flood_inv g0 (matrix s') (target_color p) (replacement_color p)
          start [].
Proof.
  induction fuel as [|fuel IH]; intros stack s HTR Hrows Hcols Hinv Hfuel.
  { destruct stack; [|simpl in Hfuel; lia]. by exists s. }
  destruct stack as [|x stack]; [by exists s|].
  pose proof (inv_shape _ _ _ _ _ _ Hinv) as (Hg & Hrows' & Hcols').
  destruct (while_stack_step p fuel x stack s Hg)
    as (s' & -> & Hg' & Hrows'' & Hcols'' & _ & Hcol); [congruence..|].
  apply IH; [done..| |].
  - apply (flood_inv_step _ (matrix s)); [done..|congruence|congruence|done].
  - pose proof (flood_measure_step (matrix s) (matrix s') _ _ x HTR Hg Hg' Hcol)
      as Hsize.
    rewrite length_app, length_rev. simpl in Hfuel. lia.
Qed.

Lemma reach_start_color (g : list (list Color)) T start z :
  reach g T start z → color_at g start = Some T.
Proof. by induction 1. Qed.

(** The run of [flood_fill_dfs] with two different colours, in full. *)
Lemma flood_fill_dfs_fills (m : list (list Color)) start T R :
  rectangular m → in_bounds (grid_rows m) (grid_cols m) start → T ≠ R →
  ∃ n, ∀ k log0, ∃ m' log',
    flood_fill_dfs (n + k) (init m start T R) (Store m log0)
      = (Ok tt, Store m' log') ∧
    ∀ z, (reach m T start z → color_at m' z = Some R) ∧
         (¬ reach m T start z → color_at m' z = color_at m z).
Proof.
  intros Hg Hin HTR.
  destruct (proj2 (color_at_in_bounds _ _ Hg) Hin) as [x Hx].
  pose proof (color_at_grid_get _ _ _ Hx) as Hget.
  destruct (grid_set_spec m start R Hg Hin) as (g1 & Hset & Hg1 & Hr1 & Hc1 & Hcol).
  destruct start as [r c]. cbn [fst snd] in *.
  exists (2 * size (cells_holding g1 T) + 1)%nat. intros k log0.
  unfold flood_fill_dfs. cbn [init initial target_color replacement_color].
  erewrite bind_Ok; [|by rewrite read_cell_eq; cbn [matrix]; rewrite Hget].
  destruct (decide (x ≠ T)) as [Hne|Heq].
  { eexists _, _. split; [done|]. intros z. split; [|done].
    intros Hz%reach_start_color. congruence. }
  assert (x = T) as -> by (destruct (decide (x = T)); tauto).
  erewrite bind_Ok; [|by unfold write_cell; cbn [matrix]; rewrite Hset].
  set (s1 := Store g1 _).
  assert (∀ z, painted m g1 T R z ↔ z = (r, c)) as Hpainted.
  { intros z. unfold painted. rewrite Hcol. split.
    - intros [Hz0 Hz]. case_decide; [done|congruence].
    - intros ->. by rewrite decide_True. }
  destruct (while_stack_correct (init m (r, c) T R) m (r, c)
              (2 * size (cells_holding g1 T) + 1 + k) [(r, c)] s1)
    as ([m' log'] & Hrun & Hinv); [done..| |simpl; lia|].
  { split.
    - done.
    - intros z. rewrite Hcol. case_decide as Hz; [|by left].
      subst z. right. split; [by apply Hpainted | by apply reach_start].
    - intros z ->%list_elem_of_singleton. by apply Hpainted.
    - intros a y ->%Hpainted _ _. right. by left.
    - by apply Hpainted. }
  exists m', log'. split; [done|].
  destruct Hinv as [_ Hcells _ Hclosed Hstart]. cbn [matrix] in *.
  assert (∀ z, reach m T (r, c) z → painted m m' T R z) as Hreach.
  { induction 1 as [|a y _ IH Hadj Hy]; [done|].
    destruct (Hclosed a y IH Hadj Hy) as [?|Hnil]; [done|].
    by apply elem_of_nil in Hnil. }
  intros z. split.
  - intros Hz. by destruct (Hreach z Hz).
  - intros Hz. by destruct (Hcells z) as [?|[_ ?]].
Qed.

(** The flood fill proper: with a replacement colour different from the
    target colour, on a rectangular matrix and from a start coordinate
    inside it, [flood_fill_dfs] returns, every cell connected to the
    start through cells of the target colour holds the replacement
    colour, and every other cell is as it was. *)
Theorem flood_fill_dfs_correct (m : list (list Color)) start T R :
  rectangular m → in_bounds (grid_rows m) (grid_cols m) start → T ≠ R →
  ∃ n, ∀ k log0, ∃ m' log',
    flood_fill_dfs (n + k) (init m start T R) (Store m log0)
      = (Ok tt, Store m' log') ∧
    ∀ z, (reach m T start z → color_at m' z = Some R) ∧
         (¬ reach m T start z → color_at m' z = color_at m z).
Proof. apply flood_fill_dfs_fills. Qed.
End flood_fill_facts.

(** C8 at a start cell that already holds the replacement colour. *)
Lemma flood_fill_dfs_start_mismatch_witness :
  (FloodFill.flood_fill_dfs 0 (FloodFill.init [["C"; "X"]] (0, 0) "X" "C")
     (FloodFill.Store [["C"; "X"]] [])).1 = Ok tt ∧
  FloodFill.matrix
    (FloodFill.flood_fill_dfs 0 (FloodFill.init [["C"; "X"]] (0, 0) "X" "C")
       (FloodFill.Store [["C"; "X"]] [])).2 = [["C"; "X"]].
Proof.
  apply (flood_fill_dfs_start_mismatch
           (FloodFill.init [["C"; "X"]] (0, 0) "X" "C")
           (FloodFill.Store [["C"; "X"]] []) 0 "C").
  - reflexivity.
  - discriminate.
Defined.

(** C2 on the one-row matrix of two cells of colour X. *)
Lemma flood_fill_dfs_same_color_diverges_witness :
  (FloodFill.flood_fill_dfs 9 pair_problem
     (FloodFill.Store pair_matrix [])).1 = OutOfFuel.
Proof.
  apply (flood_fill_dfs_same_color_diverges pair_matrix (0, 0) (0, 1) "X" 9 []).
  - by apply (bool_decide_unpack _).
  - reflexivity.
  - reflexivity.
  - reflexivity.
Defined.

(** C1: on the one-row matrix of two cells of colour X, started at
    (0, 0) with target colour X and replacement colour X, [flood_fill_dfs]
    never returns: every amount of fuel runs out, and there is no final
    matrix in which the connected cells could hold the replacement
    colour. *)
Theorem flood_fill_dfs_hangs_on_pair fuel log0 :
  (FloodFill.flood_fill_dfs fuel pair_problem
     (FloodFill.Store pair_matrix log0)).1 = OutOfFuel.
Proof.
  apply (flood_fill_dfs_same_color_loops pair_problem _ (0, 1)); try done.
  by apply (bool_decide_unpack _).
Qed.

(** ** Outcomes of subscripts, ranges, counting cells *)

Lemma getitem_Raise {A} (l : list A) i e : getitem l i = Raise e → e = IndexError.
Proof. unfold getitem. destruct (_ ≫= _); congruence. Qed.

Lemma getitem_fuel {A} (l : list A) i : getitem l i ≠ OutOfFuel.
Proof. unfold getitem. by destruct (_ ≫= _). Qed.

Lemma grid_get_Raise {A} (g : list (list A)) r c e :
  grid_get g r c = Raise e → e = IndexError.
Proof.
  unfold grid_get. destruct (getitem g r) as [row| |] eqn:Hrow.
  - apply getitem_Raise.
  - intros [= <-]. by eapply getitem_Raise.
  - done.
Qed.

Lemma grid_get_fuel {A} (g : list (list A)) r c : grid_get g r c ≠ OutOfFuel.
Proof.
  unfold grid_get. destruct (getitem g r) as [row| |] eqn:Hrow; [|done|].
  - apply getitem_fuel.
  - by apply getitem_fuel in Hrow.
Qed.

Lemma grid_rows_nonneg {A} (g : list (list A)) : 0 ≤ grid_rows g.
Proof. unfold grid_rows, len. lia. Qed.

Lemma grid_cols_nonneg {A} (g : list (list A)) : 0 ≤ grid_cols g.
Proof.
  unfold grid_cols, len. case_bool_decide; [|done].
  destruct (g !! 0%nat); lia.
Qed.

(** No more distinct cells than the grid has. *)
Lemma cells_pigeonhole rows cols (l : list cell) :
  0 ≤ rows → 0 ≤ cols →
  NoDup l → Forall (in_bounds rows cols) l → len l ≤ rows * cols.
Proof.
  intros Hrows Hcols Hnd Hall.
  set (f := λ x : cell, Z.to_nat (x.1 * cols + x.2)).
  assert (NoDup (f <$> l)) as Hnd'.
  { apply NoDup_fmap_2_strong; [|done].
    intros [r c] [r' c'] Hx Hy Hf.
    rewrite Forall_forall in Hall.
    destruct (Hall _ Hx) as [? ?], (Hall _ Hy) as [? ?].
    unfold f in Hf. simpl in *.
    assert (r * cols + c = r' * cols + c') as Heq by nia.
    assert (r = r') as -> by nia. f_equal. lia. }
  assert (f <$> l ⊆+ seq 0 (Z.to_nat (rows * cols))) as Hincl.
  { apply NoDup_submseteq; [done|]. intros k Hk.
    apply list_elem_of_fmap in Hk as ([r c] & -> & Hx).
    rewrite Forall_forall in Hall. destruct (Hall _ Hx) as [? ?].
    apply elem_of_seq. unfold f. simpl in *. nia. }
  apply submseteq_length in Hincl as Hlen.
  rewrite length_fmap, length_seq in Hlen.
  unfold len. nia.
Qed.

(** ** Longest consecutive path *)

Section longest_path_facts.
Import LongestPath.
Implicit Types (p : LongestConsecutivePathProblem) (log : list access).

Lemma chr_Ok n : 0 ≤ n ≤ max_code_point → chr n = Ok n.
Proof. intros Hn. unfold chr. by rewrite bool_decide_eq_true_2. Qed.

Lemma chr_inv n ch : chr n = Ok ch → ch = n ∧ 0 ≤ n ≤ max_code_point.
Proof. unfold chr. case_bool_decide; [|done]. by intros [= <-]. Qed.

Lemma chr_fuel n : chr n ≠ OutOfFuel.
Proof. unfold chr. by case_bool_decide. Qed.

(** [actions]: the cell itself is read without a test, its neighbours
    after the bounds test; the cells returned are inside the bounds and
    hold the successor of the character of the cell. *)
Lemma longest_actions_spec p r c log :
  (in_bounds (rows p) (cols p) (r, c) →
   extends_within (rows p) (cols p) log (actions p (r, c) log).2) ∧
  match (actions p (r, c) log).1 with
  | Ok l =>
      ∃ x, grid_get (matrix p) r c = Ok x ∧ 0 ≤ x + 1 ≤ max_code_point ∧
           Forall (λ y, in_bounds (rows p) (cols p) y ∧
                        grid_get (matrix p) y.1 y.2 = Ok (x + 1)) l
  | Raise e =>
      (∃ e', grid_get (matrix p) r c = Raise e') ∨
      (∃ x, grid_get (matrix p) r c = Ok x ∧
            ¬ 0 ≤ x + 1 ≤ max_code_point) ∨
      ¬ grid_of (matrix p) (rows p) (cols p)
  | OutOfFuel => False
  end.
Proof.
  set (Q := λ res : outcome (list cell) * list access,
    (in_bounds (rows p) (cols p) (r, c) →
     extends_within (rows p) (cols p) log res.2) ∧
    match res.1 with
    | Ok l =>
        ∃ x, grid_get (matrix p) r c = Ok x ∧ 0 ≤ x + 1 ≤ max_code_point ∧
             Forall (λ y, in_bounds (rows p) (cols p) y ∧
                          grid_get (matrix p) y.1 y.2 = Ok (x + 1)) l
    | Raise e =>
        (∃ e', grid_get (matrix p) r c = Raise e') ∨
        (∃ x, grid_get (matrix p) r c = Ok x ∧
              ¬ 0 ≤ x + 1 ≤ max_code_point) ∨
        ¬ grid_of (matrix p) (rows p) (cols p)
    | OutOfFuel => False
    end).
  change (Q (actions p (r, c) log)).
  unfold actions. unfold bind at 1, read_cell.
  destruct (grid_get (matrix p) r c) as [x|e|] eqn:Hget.
  2:{ split; [intros ?; by apply extends_within_cons|]. left. by eexists. }
  2:{ by apply grid_get_fuel in Hget. }
  unfold bind at 1, lift, ord.
  destruct (chr (x + 1)) as [next|e|] eqn:Hchr.
  2:{ split; [intros ?; by apply extends_within_cons|]. right; left. exists x.
      split; [done|]. intros Hx. by rewrite chr_Ok in Hchr. }
  2:{ by apply chr_fuel in Hchr. }
  apply chr_inv in Hchr as [-> Hx].
  apply (for_in_ind
    (λ _ acc log',
       (in_bounds (rows p) (cols p) (r, c) →
        extends_within (rows p) (cols p) log log') ∧
       Forall (λ y, in_bounds (rows p) (cols p) y ∧
                    grid_get (matrix p) y.1 y.2 = Ok (x + 1)) acc) Q).
  - intros pre [dr dc] suf acc log' _ [Hlog Hacc].
    destruct (bool_decide (0 ≤ r + dr < rows p) &&
              bool_decide (0 ≤ c + dc < cols p)) eqn:Hb; [|done].
    apply andb_true_iff in Hb as [Hr%bool_decide_eq_true
                                    Hc%bool_decide_eq_true].
    assert (in_bounds (rows p) (cols p) (r + dr, c + dc)) as Hin by done.
    assert (in_bounds (rows p) (cols p) (r, c) →
            extends_within (rows p) (cols p) log
              (Read (r + dr) (c + dc) :: log')) as Hlog'.
    { intros Hrc. eapply extends_within_trans; [by apply Hlog|].
      by apply extends_within_cons. }
    unfold bind, read_cell.
    destruct (grid_get (matrix p) (r + dr) (c + dc)) as [y|e|] eqn:Hy.
    + destruct (decide (y = x + 1)) as [->|Hne]; unfold ret;
        (split; [done|]); [|done].
      apply Forall_app. split; [done|]. by apply Forall_singleton.
    + split; [done|]. cbn [fst]. right; right. intros (Hg & Hrows & Hcols).
      rewrite Hrows, Hcols in Hin.
      destruct (grid_get_in_bounds _ _ _ Hg Hin) as (? & ? & _ & _ & ?).
      congruence.
    + by apply grid_get_fuel in Hy.
  - intros acc log' [Hlog Hacc]. split; [done|]. by exists x.
  - split; [|constructor]. intros Hrc. by apply extends_within_cons.
Qed.

(** The bound on the depth of the recursion from a cell: one level per
    code point from the character of the cell up to the last one. *)
Lemma dfs_longest_fuel p fuel : ∀ r c log,
  (∀ x, grid_get (matrix p) r c = Ok x →
        max_code_point + 1 - x < Z.of_nat fuel) →
  (0 < fuel)%nat →
  (dfs_longest fuel p r c log).1 ≠ OutOfFuel.
Proof.
  induction fuel as [|fuel IH]; intros r c log Hx Hpos; [lia|].
  cbn [dfs_longest]. unfold bind at 1.
  destruct (longest_actions_spec p r c log) as [_ Hact].
  destruct (actions p (r, c) log) as [[l|e|] log1]; cbn [fst] in *;
    [|done..].
  destruct Hact as (x & Hget & Hnext & Hall).
  specialize (Hx x Hget).
  apply (for_in_ind (λ _ _ _, True) (λ res, res.1 ≠ OutOfFuel)); [|done..].
  intros pre [nr nc] suf acc log' Hl _.
  rewrite Forall_forall in Hall.
  destruct (Hall (nr, nc)) as [_ Hchild].
  { rewrite Hl, elem_of_app, elem_of_cons. tauto. }
  specialize (IH nr nc log'). unfold bind.
  destruct (dfs_longest fuel p nr nc log') as [[sub|e|] log'']; cbn [fst] in *.
  - by case_bool_decide.
  - done.
  - apply IH; [|lia]. intros x' Hx'. simpl in Hchild.
    assert (x' = x + 1) as -> by congruence. lia.
Qed.

(** More fuel does not change a run that had enough. *)
Lemma dfs_longest_mono p fuel : ∀ r c log,
  fuel_le (dfs_longest fuel p r c log) (dfs_longest (S fuel) p r c log).
Proof.
  induction fuel as [|fuel IH]; intros r c log; [by left|].
  change (dfs_longest (S (S fuel)) p r c log)
    with ((children <- actions p (r, c) ;;
           for_in children (λ '(nr, nc) best_len,
             sub <- dfs_longest (S fuel) p nr nc ;;
             let length_child := 1 + sub in
             if bool_decide (length_child > best_len) then ret length_child
             else ret best_len) 1) log).
  cbn [dfs_longest]. apply bind_fuel_le; [apply fuel_le_refl|].
  intros children log'. apply for_in_fuel_le.
  intros [nr nc] acc log'' _. apply bind_fuel_le; [apply IH|].
  intros sub log3. apply fuel_le_refl.
Qed.

Lemma dfs_longest_more_fuel p n r c log :
  (dfs_longest n p r c log).1 ≠ OutOfFuel →
  ∀ k, dfs_longest (n + k) p r c log = dfs_longest n p r c log.
Proof.
  intros Hn k. induction k as [|k IH].
  - by rewrite Nat.add_0_r.
  - rewrite Nat.add_succ_r.
    destruct (dfs_longest_mono p (n + k) r c log) as [Hout|<-]; [|done].
    by rewrite IH in Hout.
Qed.

(** From a cell inside the bounds, [dfs_longest] evaluates subscripts
    inside the bounds only. *)
Lemma dfs_longest_log p fuel : ∀ r c log,
  in_bounds (rows p) (cols p) (r, c) →
  extends_within (rows p) (cols p) log (dfs_longest fuel p r c log).2.
Proof.
  induction fuel as [|fuel IH]; intros r c log Hrc.
  { apply extends_within_refl. }
  cbn [dfs_longest]. unfold bind at 1.
  destruct (longest_actions_spec p r c log) as [Hlog Hact].
  specialize (Hlog Hrc).
  destruct (actions p (r, c) log) as [[l|e|] log1]; cbn [fst snd] in *;
    [|done..].
  destruct Hact as (x & _ & _ & Hall).
  apply (for_in_ind
    (λ _ _ log', extends_within (rows p) (cols p) log log')
    (λ res, extends_within (rows p) (cols p) log res.2)); [|done..].
  intros pre [nr nc] suf acc log' Hl Hlog'.
  rewrite Forall_forall in Hall.
  destruct (Hall (nr, nc)) as [Hin _].
  { rewrite Hl, elem_of_app, elem_of_cons. tauto. }
  specialize (IH nr nc log' Hin). unfold bind.
  destruct (dfs_longest fuel p nr nc log') as [[sub|e|] log''];
    cbn [fst snd] in *; [|by eapply extends_within_trans..].
  case_bool_decide; by eapply extends_within_trans.
Qed.

(** C5: [dfs_longest] terminates from every cell of every grid, with no
    visited set in its state: every cell [actions] returns holds the
    successor of the character of the cell it was asked about, so the
    characters along a chain of calls increase by one at each level and
    the depth is bounded by the number of code points; some amount of
    fuel is enough, and more fuel gives the same run. *)
Theorem dfs_longest_terminates p r c log :
  match (actions p (r, c) log).1 with
  | Ok l =>
      ∃ x, grid_get (matrix p) r c = Ok x ∧
           Forall (λ y, grid_get (matrix p) y.1 y.2 = Ok (x + 1)) l
  | _ => True
  end ∧
  ∃ n, (dfs_longest n p r c log).1 ≠ OutOfFuel ∧
       ∀ k, dfs_longest (n + k) p r c log = dfs_longest n p r c log.
Proof.
  split.
  - destruct (longest_actions_spec p r c log) as [_ Hact].
    destruct (actions p (r, c) log).1 as [l|e|]; [|done..].
    destruct Hact as (x & Hget & _ & Hall). exists x. split; [done|].
    eapply Forall_impl; [done|]. by intros y [_ ?].
  - set (n := match grid_get (matrix p) r c with
              | Ok x => S (Z.to_nat (max_code_point + 1 - x))
              | _ => 1%nat
              end).
    assert ((dfs_longest n p r c log).1 ≠ OutOfFuel) as Hn.
    { apply dfs_longest_fuel.
      - intros x Hx. unfold n. rewrite Hx. lia.
      - unfold n. destruct (grid_get (matrix p) r c); lia. }
    exists n. split; [done|]. by apply dfs_longest_more_fuel.
Qed.

(** On a rectangular grid none of whose characters is the last code
    point, [dfs_longest] with enough fuel returns a length of at least
    one. *)
Lemma dfs_longest_ok p fuel : ∀ r c log x,
  grid_of (matrix p) (rows p) (cols p) →
  (∀ y ch, color_at (matrix p) y = Some ch → 0 ≤ ch < max_code_point) →
  color_at (matrix p) (r, c) = Some x →
  max_code_point + 1 - x < Z.of_nat fuel →
  ∃ v log', dfs_longest fuel p r c log = (Ok v, log') ∧ 1 ≤ v.
Proof.
  induction fuel as [|fuel IH]; intros r c log x Hgrid Hchars Hx Hfuel.
  { specialize (Hchars _ _ Hx). lia. }
  cbn [dfs_longest]. unfold bind at 1.
  destruct (longest_actions_spec p r c log) as [_ Hact].
  pose proof (color_at_grid_get _ _ _ Hx) as Hget. cbn [fst snd] in Hget.
  pose proof (Hchars _ _ Hx) as Hxrange.
  destruct (actions p (r, c) log) as [[l|e|] log1]; cbn [fst] in *.
  2:{ destruct Hact as [[e' He']|[(x' & Hx' & Hnot)|Hnot]]; [congruence| |done].
      assert (x' = x) as -> by congruence. lia. }
  2:{ done. }
  destruct Hact as (x' & Hx' & _ & Hall).
  assert (x' = x) as -> by congruence.
  apply (for_in_ind (λ _ acc _, 1 ≤ acc)
           (λ res, ∃ v log', res = (Ok v, log') ∧ 1 ≤ v)).
  - intros pre [nr nc] suf acc log' Hl Hacc.
    rewrite Forall_forall in Hall.
    destruct (Hall (nr, nc)) as [Hin Hchild].
    { rewrite Hl, elem_of_app, elem_of_cons. tauto. }
    destruct Hgrid as (Hg & Hrows & Hcols).
    assert (color_at (matrix p) (nr, nc) = Some (x + 1)) as Hcolor.
    { apply grid_get_color_at; [done| |done]. by rewrite <- Hrows, <- Hcols. }
    destruct (IH nr nc log' (x + 1)) as (v & log'' & Hrun & Hv);
      [done..|lia|].
    unfold bind. rewrite Hrun. case_bool_decide; unfold ret; lia.
  - intros acc log' Hacc. by exists acc, log'.
  - lia.
Qed.

(** [find_longest_consecutive_path] on such a grid: some amount of fuel
    is enough, and the length returned is at least one if the start
    character occurs in the grid and zero if it does not. *)
Lemma find_longest_ok p fuel log :
  grid_of (matrix p) (rows p) (cols p) →
  (∀ y ch, color_at (matrix p) y = Some ch → 0 ≤ ch < max_code_point) →
  max_code_point + 1 < Z.of_nat fuel →
  ∃ v log', find_longest_consecutive_path fuel p log = (Ok v, log') ∧
    ((∃ y, color_at (matrix p) y = Some (start_char p)) → 1 ≤ v) ∧
    ((¬ ∃ y, color_at (matrix p) y = Some (start_char p)) → v = 0).
Proof.
  intros Hgrid Hchars Hfuel. unfold find_longest_consecutive_path.
  set (occurs := λ y, color_at (matrix p) y = Some (start_char p)).
  set (Inv := λ (P : cell → Prop) (acc : Z),
    (1 ≤ acc ∧ ∃ y, P y ∧ occurs y) ∨ (acc = 0 ∧ ∀ y, P y → ¬ occurs y)).
  set (Pout := λ (pre : list Z) (y : cell), y.1 ∈ pre ∧ y.2 ∈ range (cols p)).
  apply (for_in_ind (λ pre acc _, Inv (Pout pre) acc)
    (λ res, ∃ v log', res = (Ok v, log') ∧
       ((∃ y, occurs y) → 1 ≤ v) ∧ ((¬ ∃ y, occurs y) → v = 0))).
  - intros pre r suf acc log0 Hrange Hacc.
    assert (0 ≤ r < rows p) as Hr.
    { in_range Hrange. }
    set (Pin := λ (pre' : list Z) (y : cell),
      Pout pre y ∨ (y.1 = r ∧ y.2 ∈ pre')).
    enough (∃ v log', for_in (range (cols p)) (λ c longest_path,
                x <- read_cell p r c ;;
                if decide (x = start_char p) then
                  length <- dfs_longest fuel p r c ;;
                  if bool_decide (length > longest_path) then ret length
                  else ret longest_path
                else ret longest_path) acc log0 = (Ok v, log') ∧
              Inv (Pout (pre ++ [r])) v) as (v & log' & -> & Hv) by done.
    apply (for_in_ind (λ pre' acc' _, Inv (Pin pre') acc')
      (λ res, ∃ v log', res = (Ok v, log') ∧ Inv (Pout (pre ++ [r])) v)).
    + intros pre' c suf' acc' log1 Hrange' Hacc'.
      assert (0 ≤ c < cols p) as Hc.
      { in_range Hrange'. }
      destruct Hgrid as (Hg & Hrows & Hcols).
      assert (in_bounds (grid_rows (matrix p)) (grid_cols (matrix p)) (r, c))
        as Hin by (split; simpl; lia).
      destruct (proj2 (color_at_in_bounds _ _ Hg) Hin) as [x Hx].
      pose proof (color_at_grid_get _ _ _ Hx) as Hget. cbn [fst snd] in Hget.
      unfold bind at 1, read_cell. rewrite Hget.
      assert (∀ y, Pin (pre' ++ [c]) y ↔ Pin pre' y ∨ y = (r, c)) as HPin.
      { intros [yr yc]. unfold Pin. simpl.
        rewrite elem_of_app, list_elem_of_singleton.
        split; [|intros [[?|[? ?]]|[= -> ->]]; tauto].
        intros [?|[-> [?| ->]]]; tauto. }
      destruct (decide (x = start_char p)) as [->|Hne].
      * destruct (dfs_longest_ok p fuel r c (Read r c :: log1)
                    (start_char p)) as (v & log2 & Hrun & Hv);
          [done..| |].
        { specialize (Hchars _ _ Hx). lia. }
        unfold bind. rewrite Hrun.
        assert (occurs (r, c)) as Hocc by done.
        case_bool_decide; unfold ret; left.
        -- split; [lia|]. exists (r, c). split; [|done]. apply HPin. by right.
        -- split; [|exists (r, c); split; [apply HPin; by right | done]].
           destruct Hacc' as [[? _]|[-> _]]; lia.
      * unfold ret. destruct Hacc' as [[Hge (y & Hy & Hocc)]|[-> Hnone]].
        -- left. split; [done|]. exists y. split; [|done]. apply HPin. by left.
        -- right. split; [done|]. intros y Hy.
           apply HPin in Hy as [Hy|Hy]; [by apply Hnone|]. subst y.
           unfold occurs. congruence.
    + intros acc' log1 Hacc'. exists acc', log1. split; [done|].
      assert (∀ y, Pin (range (cols p)) y ↔ Pout (pre ++ [r]) y) as HP.
      { intros [yr yc]. unfold Pin, Pout. simpl.
        rewrite elem_of_app, list_elem_of_singleton. tauto. }
      destruct Hacc' as [[Hge (y & Hy & Hocc)]|[-> Hnone]].
      * left. split; [done|]. exists y. split; [by apply HP | done].
      * right. split; [done|]. intros y Hy. apply Hnone. by apply HP.
    + destruct Hacc as [[Hge (y & Hy & Hocc)]|[-> Hnone]].
      * left. split; [done|]. exists y. split; [by left | done].
      * right. split; [done|]. intros y [Hy|[_ Hy]]; [by apply Hnone|].
        by apply elem_of_nil in Hy.
  - intros acc log' Hacc. exists acc, log'. split; [done|].
    assert (∀ y, occurs y → Pout (range (rows p)) y) as Hall.
    { intros y Hy. destruct Hgrid as (Hg & Hrows & Hcols).
      assert (in_bounds (grid_rows (matrix p)) (grid_cols (matrix p)) y)
        as [? ?] by (apply color_at_in_bounds; [done | by eexists]).
      split; apply elem_of_range; lia. }
    destruct Hacc as [[Hge (y & Hy & Hocc)]|[-> Hnone]].
    + split; [done|]. intros Hnot. exfalso. apply Hnot. by exists y.
    + split; [|done]. intros [y Hy]. exfalso. by apply (Hnone y); [apply Hall|].
  - right. split; [done|]. intros y [Hy _]. by apply elem_of_nil in Hy.
Qed.

(** From the cells of its two ranges, and from there through
    [dfs_longest], [find_longest_consecutive_path] evaluates subscripts
    inside the bounds only. *)
Lemma find_longest_log p fuel log :
  extends_within (rows p) (cols p) log
    (find_longest_consecutive_path fuel p log).2.
Proof.
  unfold find_longest_consecutive_path.
  apply (for_in_ind
    (λ _ _ log', extends_within (rows p) (cols p) log log')
    (λ res, extends_within (rows p) (cols p) log res.2));
    [|done|apply extends_within_refl].
  intros pre r suf acc log0 Hrange Hlog0.
  assert (0 ≤ r < rows p) as Hr.
  { in_range Hrange. }
  enough (extends_within (rows p) (cols p) log
            (for_in (range (cols p)) (λ c longest_path,
                x <- read_cell p r c ;;
                if decide (x = start_char p) then
                  length <- dfs_longest fuel p r c ;;
                  if bool_decide (length > longest_path) then ret length
                  else ret longest_path
                else ret longest_path) acc log0).2) as Hinner.
  { by destruct (for_in (range (cols p)) _ acc log0) as [[v|e|] log']. }
  apply (for_in_ind
    (λ _ _ log', extends_within (rows p) (cols p) log log')
    (λ res, extends_within (rows p) (cols p) log res.2)); [|done..].
  intros pre' c suf' acc' log1 Hrange' Hlog1.
  assert (0 ≤ c < cols p) as Hc.
  { in_range Hrange'. }
  assert (in_bounds (rows p) (cols p) (r, c)) as Hin by done.
  assert (extends_within (rows p) (cols p) log (Read r c :: log1)) as Hread.
  { eapply extends_within_trans; [done|]. by apply extends_within_cons. }
  unfold bind at 1, read_cell.
  destruct (grid_get (matrix p) r c) as [x|e|]; [|done..].
  destruct (decide (x = start_char p)); [|done].
  pose proof (dfs_longest_log p fuel r c (Read r c :: log1) Hin) as Hdfs.
  unfold bind.
  destruct (dfs_longest fuel p r c (Read r c :: log1)) as [[v|e'|] log2];
    cbn [snd] in *; [|by eapply extends_within_trans..].
  case_bool_decide; by eapply extends_within_trans.
Qed.
End longest_path_facts.

(** ** Word search *)

Section word_search_facts.
Import WordSearch.
Context {char : Type} `{Countable char}.
Implicit Types (b : list (list char)) (w : list char) (s : store).

(** What a call of [dfs] does to the visited set: a call that returns
    [False] leaves it as it found it; a call that returns [True] has
    added the cells it matched, which are distinct, inside the grid, new
    to the set, and as many as there were letters left.  The only
    exception is [IndexError], raised by a board that is not rectangular;
    the fuel runs out only if it was not more than the letters left. *)
Lemma dfs_frame b w rows cols fuel : ∀ r c index s,
  0 ≤ index ≤ len w →
  match dfs fuel b w rows cols r c index s with
  | (Ok false, s') => visited s' = visited s
  | (Ok true, s') =>
      ∃ ext, NoDup ext ∧
             Forall (λ x, (x ∉ visited s) ∧ in_bounds rows cols x) ext ∧
             visited s' = list_to_set ext ∪ visited s ∧
             len ext = len w - index
  | (Raise e, s') => e = IndexError ∧ ¬ grid_of b rows cols
  | (OutOfFuel, s') => Z.of_nat fuel ≤ len w - index
  end.
Proof.
  induction fuel as [|fuel IH]; intros r c index s Hindex.
  { simpl. unfold lift. lia. }
  cbn [dfs].
  destruct (decide (index = len w)) as [->|Hne].
  { exists []. split_and!; [constructor|constructor|set_solver|].
    unfold len. simpl. lia. }
  destruct (bool_decide (0 ≤ r < rows) && bool_decide (0 ≤ c < cols)) eqn:Hb;
    [|done].
  apply andb_true_iff in Hb as [Hr%bool_decide_eq_true Hc%bool_decide_eq_true].
  cbn [negb]. unfold bind at 1, read_cell.
  destruct (grid_get b r c) as [x|e|] eqn:Hget.
  2:{ split; [by eapply grid_get_Raise|].
      intros (Hg & -> & ->).
      by destruct (grid_get_in_bounds b r c Hg) as (? & ? & _ & _ & ?);
        [|congruence]. }
  2:{ by apply grid_get_fuel in Hget. }
  destruct (getitem_nonneg w index) as (y & _ & Hy); [lia|].
  unfold bind at 1, lift. rewrite Hy.
  destruct (decide (x ≠ y)) as [|Hxy]; [done|].
  unfold bind at 1, visited_mem. cbn [visited log].
  case_bool_decide as Hseen; [done|].
  unfold bind at 1, visited_add. cbn [visited log].
  set (s1 := Store ({[(r, c)]} ∪ visited s) (Read r c :: log s)).
  apply (for_any_ind
    (λ _ s', visited s' = {[(r, c)]} ∪ visited s)
    (λ res, match res with
            | (Ok false, s') => visited s' = visited s
            | (Ok true, s') =>
                ∃ ext, NoDup ext ∧
                  Forall (λ x, (x ∉ visited s) ∧ in_bounds rows cols x) ext ∧
                  visited s' = list_to_set ext ∪ visited s ∧
                  len ext = len w - index
            | (Raise e, s') => e = IndexError ∧ ¬ grid_of b rows cols
            | (OutOfFuel, s') => Z.of_nat (S fuel) ≤ len w - index
            end)); [| |done].
  - intros pre [dr dc] suf s' _ Hs'.
    specialize (IH (r + dr) (c + dc) (index + 1) s').
    destruct (dfs fuel b w rows cols (r + dr) (c + dc) (index + 1) s')
      as [[[]|e|] s''].
    + destruct IH as (ext & Hnd & Hall & Hvis & Hlen); [lia|].
      rewrite Forall_forall in Hall.
      exists ((r, c) :: ext). split_and!.
      * constructor; [|done]. intros Hin.
        destruct (Hall _ Hin) as [Hnot _]. rewrite Hs' in Hnot. set_solver.
      * constructor; [done|]. apply Forall_forall. intros z Hz.
        destruct (Hall _ Hz) as [Hnot ?]. rewrite Hs' in Hnot.
        split; [set_solver|done].
      * rewrite Hvis, Hs'. set_solver.
      * unfold len in *. simpl. lia.
    + rewrite IH by lia. done.
    + apply IH. lia.
    + lia.
  - intros s' Hs'. unfold bind, visited_remove.
    rewrite decide_True by (rewrite Hs'; set_solver).
    unfold ret. cbn [visited]. rewrite Hs'. set_solver.
Qed.

(** Every board subscript [dfs] evaluates has passed its bounds test,
    whatever the arguments of the call. *)
Lemma dfs_log b w rows cols fuel : ∀ r c index s,
  extends_within rows cols (log s)
    (log (dfs fuel b w rows cols r c index s).2).
Proof.
  induction fuel as [|fuel IH]; intros r c index s.
  { apply extends_within_refl. }
  cbn [dfs].
  destruct (decide (index = len w)); [apply extends_within_refl|].
  destruct (bool_decide (0 ≤ r < rows) && bool_decide (0 ≤ c < cols)) eqn:Hb;
    [|apply extends_within_refl].
  apply andb_true_iff in Hb as [Hr%bool_decide_eq_true Hc%bool_decide_eq_true].
  assert (extends_within rows cols (log s) (Read r c :: log s)) as Hread.
  { by apply extends_within_cons. }
  cbn [negb]. unfold bind at 1, read_cell.
  destruct (grid_get b r c) as [x|e|]; [|done..].
  unfold bind at 1, lift.
  destruct (getitem w index) as [y|e|]; [|done..].
  destruct (decide (x ≠ y)); [done|].
  unfold bind at 1, visited_mem. cbn [visited log].
  case_bool_decide; [done|].
  unfold bind at 1, visited_add. cbn [visited log].
  apply (for_any_ind
    (λ _ s', extends_within rows cols (log s) (log s'))
    (λ res, extends_within rows cols (log s) (log res.2))); [| |done].
  - intros pre [dr dc] suf s' _ Hs'.
    specialize (IH (r + dr) (c + dc) (index + 1) s').
    destruct (dfs fuel b w rows cols (r + dr) (c + dc) (index + 1) s')
      as [[[]|e|] s'']; by eapply extends_within_trans.
  - intros s' Hs'. unfold bind, visited_remove.
    by case_decide.
Qed.

Lemma can_form_word_dfs_empty b s :
  can_form_word_dfs b [] s = (Raise IndexError, s).
Proof. unfold can_form_word_dfs. by rewrite getitem_nil. Qed.

(** [can_form_word_dfs] as a whole: its subscripts are inside the
    bounds; it accepts no word longer than the grid has cells; it raises
    nothing but [IndexError], and that only for the empty word or for a
    board that is not rectangular; its fuel never runs out. *)
Lemma can_form_word_dfs_spec b w s :
  extends_within (grid_rows b) (grid_cols b) (log s)
    (log (can_form_word_dfs b w s).2) ∧
  match (can_form_word_dfs b w s).1 with
  | Ok true => len w ≤ grid_rows b * grid_cols b
  | Ok false => True
  | Raise e => e = IndexError ∧ (w = [] ∨ ¬ rectangular b)
  | OutOfFuel => False
  end.
Proof.
  destruct w as [|a w'].
  { rewrite can_form_word_dfs_empty. simpl.
    split; [apply extends_within_refl | by split; [|left]]. }
  set (w := a :: w'). unfold can_form_word_dfs.
  destruct (getitem_nonneg w 0) as (y & _ & Hy).
  { unfold len. simpl. lia. }
  unfold bind at 1, lift. rewrite Hy.
  set (rows := grid_rows b). set (cols := grid_cols b).
  set (Q := λ res : outcome bool * store,
    extends_within rows cols (log s) (log res.2) ∧
    match res.1 with
    | Ok true => len w ≤ rows * cols
    | Ok false => True
    | Raise e => e = IndexError ∧ (w = [] ∨ ¬ rectangular b)
    | OutOfFuel => False
    end).
  apply (for_any_ind (λ _ s', extends_within rows cols (log s) (log s')) Q);
    [| |apply extends_within_refl].
  2:{ intros s' Hs'. by split. }
  intros pre r suf s0 Hrange Hs0.
  assert (0 ≤ r < rows) as Hr.
  { in_range Hrange. }
  enough (Q (for_any (range cols)
               (λ c, x <- read_cell b r c ;;
                     if decide (x = y)
                     then visited_new ;;;
                          dfs (S (length w)) b w rows cols r c 0
                     else ret false) (ret false) s0)) as HQ.
  { destruct (for_any _ _ _ s0) as [[[]|e|] s1]; try done. apply HQ. }
  apply (for_any_ind (λ _ s', extends_within rows cols (log s) (log s')) Q);
    [| |done].
  2:{ intros s' Hs'. by split. }
  intros pre' c suf' s1 Hrange' Hs1.
  assert (0 ≤ c < cols) as Hc.
  { in_range Hrange'. }
  assert (extends_within rows cols (log s) (Read r c :: log s1)) as Hread.
  { eapply extends_within_trans; [done|]. by apply extends_within_cons. }
  unfold bind at 1, read_cell.
  destruct (grid_get b r c) as [x|e|] eqn:Hget.
  2:{ split; [done|]. split; [by eapply grid_get_Raise|]. right.
      intros Hg.
      by destruct (grid_get_in_bounds b r c Hg) as (? & ? & _ & _ & ?);
        [|congruence]. }
  2:{ by apply grid_get_fuel in Hget. }
  destruct (decide (x = y)) as [_|_]; [|done].
  unfold bind, visited_new. cbn [visited log].
  set (s2 := Store ∅ (Read r c :: log s1)).
  pose proof (dfs_log b w rows cols (S (length w)) r c 0 s2) as Hlog.
  pose proof (dfs_frame b w rows cols (S (length w)) r c 0 s2) as Hframe.
  destruct (dfs (S (length w)) b w rows cols r c 0 s2) as [[[]|e|] s3];
    cbn [fst snd] in *.
  - destruct Hframe as (ext & Hnd & Hall & _ & Hlen); [unfold len; lia|].
    split; [by eapply extends_within_trans|]. cbn [fst].
    replace (len w) with (len ext) by lia.
    apply cells_pigeonhole;
      [apply grid_rows_nonneg | apply grid_cols_nonneg | done |].
    eapply Forall_impl; [done|]. by intros z [_ ?].
  - by eapply extends_within_trans.
  - split; [by eapply extends_within_trans|]. cbn [fst].
    destruct Hframe as [-> Hnot]; [unfold len; lia|].
    split; [done|]. right. intros Hg. by apply Hnot.
  - unfold len in Hframe. lia.
Qed.

(** [find_all_words]: a returned set holds dictionary words no longer
    than the grid has cells; the only exception is [IndexError], raised
    for an empty dictionary word or a board that is not rectangular. *)
Lemma find_all_words_spec (p : WordSearchProblem) s :
  match (find_all_words p s).1 with
  | Ok found =>
      ([] ∉ dictionary p) ∧
      ∀ w, w ∈ found →
           w ∈ dictionary p ∧
           len w ≤ grid_rows (board p) * grid_cols (board p)
  | Raise e =>
      e = IndexError ∧ ([] ∈ dictionary p ∨ ¬ rectangular (board p))
  | OutOfFuel => False
  end.
Proof.
  unfold find_all_words.
  set (bound := grid_rows (board p) * grid_cols (board p)).
  apply (for_in_ind
    (λ pre (acc : gset word) _,
       ([] ∉ pre) ∧ ∀ w, w ∈ acc → w ∈ pre ∧ len w ≤ bound)
    (λ res, match res.1 with
            | Ok found =>
                ([] ∉ dictionary p) ∧
                ∀ w, w ∈ found → w ∈ dictionary p ∧ len w ≤ bound
            | Raise e =>
                e = IndexError ∧
                ([] ∈ dictionary p ∨ ¬ rectangular (board p))
            | OutOfFuel => False
            end)).
  - intros pre w suf acc s' Hdict [Hpre Hacc].
    destruct (can_form_word_dfs_spec (board p) w s') as [_ Hspec].
    unfold bind.
    destruct (can_form_word_dfs (board p) w s') as [[found|e|] s''] eqn:Hrun;
      cbn [fst snd] in *; [| |done].
    + assert (w ≠ []) as Hw.
      { intros ->. by rewrite can_form_word_dfs_empty in Hrun. }
      assert ([] ∉ pre ++ [w]) as Hpre'.
      { rewrite elem_of_app, list_elem_of_singleton. naive_solver. }
      destruct found; unfold ret; (split; [done|]); intros w' Hw'.
      * apply elem_of_union in Hw' as [->%elem_of_singleton|Hw'].
        -- split; [|done]. apply elem_of_app. right. by left.
        -- destruct (Hacc _ Hw'). split; [|done]. apply elem_of_app. by left.
      * destruct (Hacc _ Hw'). split; [|done]. apply elem_of_app. by left.
    + destruct Hspec as [-> [->|Hnot]]; (split; [done|]); [left|by right].
      rewrite Hdict, elem_of_app, elem_of_cons. tauto.
  - by intros acc s' [Hpre Hacc].
  - split; [apply not_elem_of_nil|]. set_solver.
Qed.

(** C10: [can_form_word_dfs] raises [IndexError] on the empty word, on
    every board and before it touches the board; [find_all_words]
    therefore raises it whenever the dictionary holds an empty word. *)
Theorem empty_word_raises_IndexError b (d : list word) s :
  [] ∈ d →
  can_form_word_dfs b [] s = (Raise IndexError, s) ∧
  (find_all_words (init b d) s).1 = Raise IndexError.
Proof.
  intros Hd. split; [apply can_form_word_dfs_empty|].
  pose proof (find_all_words_spec (init b d) s) as Hspec.
  destruct (find_all_words (init b d) s).1 as [found|e|]; simpl in *.
  - by destruct Hspec as [Hnot _].
  - by destruct Hspec as [-> _].
  - done.
Qed.

(** C7: on a rectangular grid of [rows] x [cols] cells, a word of more
    than [rows * cols] letters makes [can_form_word_dfs] return [False],
    and is in no set that [find_all_words] returns; [find_all_words]
    does return a set when no dictionary word is empty. *)
Theorem long_word_never_found b w :
  rectangular b →
  len w > grid_rows b * grid_cols b →
  (∀ s, (can_form_word_dfs b w s).1 = Ok false) ∧
  (∀ d s found, (find_all_words (init b d) s).1 = Ok found → w ∉ found) ∧
  (∀ d s, [] ∉ d → ∃ found, (find_all_words (init b d) s).1 = Ok found).
Proof.
  intros Hg Hlong. split_and!.
  - intros s. destruct (can_form_word_dfs_spec b w s) as [_ Hspec].
    destruct (can_form_word_dfs b w s).1 as [[]|e|]; [lia|done| |done].
    destruct Hspec as [_ [->|Hnot]]; [|done].
    pose proof (grid_rows_nonneg b). pose proof (grid_cols_nonneg b).
    unfold len in Hlong. simpl in Hlong. nia.
  - intros d s found Hrun Hw.
    pose proof (find_all_words_spec (init b d) s) as Hspec.
    rewrite Hrun in Hspec. destruct Hspec as [_ Hfound].
    destruct (Hfound _ Hw) as [_ Hlen]. simpl in Hlen. lia.
  - intros d s Hd.
    pose proof (find_all_words_spec (init b d) s) as Hspec.
    destruct (find_all_words (init b d) s).1 as [found|e|]; simpl in *.
    + by exists found.
    + by destruct Hspec as [_ [?|?]].
    + done.
Qed.

Lemma getitem_Ok_nonneg {A} (l : list A) i x :
  0 ≤ i → getitem l i = Ok x → i < len l.
Proof.
  intros Hi. unfold getitem, py_index.
  case_bool_decide; [lia|]. case_bool_decide; [lia|done].
Qed.

End word_search_facts.

(** C10 on the scenario board with a dictionary of one empty word. *)
Lemma empty_word_raises_IndexError_witness :
  WordSearch.can_form_word_dfs scenario_board [] (WordSearch.Store ∅ [])
    = (Raise IndexError, WordSearch.Store ∅ []) ∧
  (WordSearch.find_all_words (WordSearch.init scenario_board [[]])
     (WordSearch.Store ∅ [])).1 = Raise IndexError.
Proof.
  apply (empty_word_raises_IndexError scenario_board [[]]
           (WordSearch.Store ∅ [])).
  by apply (bool_decide_unpack _).
Defined.

(** C7 on the scenario board, of six cells, and a word of seven
    letters. *)
Lemma long_word_never_found_witness :
  (∀ s, (WordSearch.can_form_word_dfs scenario_board (chars "CATCATC") s).1
        = Ok false) ∧
  (∀ d s found,
     (WordSearch.find_all_words (WordSearch.init scenario_board d) s).1
       = Ok found → chars "CATCATC" ∉ found) ∧
  (∀ d s, [] ∉ d →
     ∃ found,
       (WordSearch.find_all_words (WordSearch.init scenario_board d) s).1
         = Ok found).
Proof.
  apply (long_word_never_found scenario_board (chars "CATCATC")).
  - by apply (bool_decide_unpack _).
  - reflexivity.
Defined.

(** C3: on the scenario board, whatever the order in which the three
    dictionary words are tried, [find_all_words] returns the set of CAT
    and ACT: ACT is spelled by (0,1), (0,0), (1,1). *)
Theorem find_all_words_scenario (d : list (list ascii)) s :
  d ≡ₚ scenario_dictionary →
  (WordSearch.find_all_words (WordSearch.init scenario_board d) s).1
    = Ok {[chars "CAT"; chars "ACT"]}.
Proof.
  intros Hd. symmetry in Hd. apply permutations_Permutation in Hd.
  revert d Hd. apply Forall_forall.
  let l := eval vm_compute in (permutations scenario_dictionary) in
  change (permutations scenario_dictionary) with l.
  repeat (apply Forall_cons; split; [reflexivity|]).
  apply Forall_nil_2.
Qed.

(** C3 with the dictionary in the order CAT, ACT, DOG. *)
Lemma find_all_words_scenario_witness :
  (WordSearch.find_all_words
     (WordSearch.init scenario_board scenario_dictionary)
     (WordSearch.Store ∅ [])).1
    = Ok {[chars "CAT"; chars "ACT"]}.
Proof.
  apply (find_all_words_scenario scenario_dictionary (WordSearch.Store ∅ [])).
  reflexivity.
Defined.

(** The scenario's expected set, CAT alone, is not what is returned. *)
Lemma find_all_words_scenario_not_only_CAT :
  (WordSearch.find_all_words
     (WordSearch.init scenario_board scenario_dictionary)
     (WordSearch.Store ∅ [])).1
    ≠ Ok {[chars "CAT"]}.
Proof.
  intros Heq.
  pose proof (f_equal (λ o, match o with
                            | Ok found => bool_decide (chars "ACT" ∈ found)
                            | _ => false
                            end) Heq) as Hmem.
  vm_compute in Hmem. discriminate Hmem.
Qed.

(** ** Longest path: the start character in the grid *)

Lemma chars_below_last_color_at g y ch :
  chars_below_last g → color_at g y = Some ch →
  0 ≤ ch < LongestPath.max_code_point.
Proof.
  intros Hg (_ & _ & row & Hrow & Hch)%color_at_Some.
  pose proof (Forall_lookup_1 _ _ _ _ Hg Hrow) as Hall.
  by apply (Forall_lookup_1 _ _ _ _ Hall Hch).
Qed.

(** Where no cell holds the last code point no exception is raised: on
    a rectangular grid whose characters are all below it, with enough
    fuel [find_longest_consecutive_path] returns a length that is at
    least 1 if the start character occurs in the grid and 0 if it does
    not. *)
Theorem find_longest_consecutive_path_occurs
    (m : list (list LongestPath.char)) (c : LongestPath.char) :
  rectangular m → chars_below_last m →
  ∃ n, ∀ k log, ∃ v log',
    LongestPath.find_longest_consecutive_path (n + k) (LongestPath.init m c) log
      = (Ok v, log') ∧
    ((∃ y, color_at m y = Some c) → 1 ≤ v) ∧
    ((¬ ∃ y, color_at m y = Some c) → v = 0).
Proof.
  intros Hg Hchars.
  exists (Z.to_nat (LongestPath.max_code_point + 2)). intros k log.
  apply (find_longest_ok (LongestPath.init m c)); [done| |lia].
  intros y ch. by apply chars_below_last_color_at.
Qed.

(** The grid [[A,B],[D,C]] with the start character A. *)
Lemma find_longest_consecutive_path_occurs_witness :
  ∃ n, ∀ k log, ∃ v log',
    LongestPath.find_longest_consecutive_path (n + k)
      (LongestPath.init abcd_matrix 65) log = (Ok v, log') ∧
    ((∃ y, color_at abcd_matrix y = Some 65) → 1 ≤ v) ∧
    ((¬ ∃ y, color_at abcd_matrix y = Some 65) → v = 0).
Proof.
  apply (find_longest_consecutive_path_occurs abcd_matrix 65).
  - by apply (bool_decide_unpack _).
  - by apply (bool_decide_unpack _).
Defined.

(** C6: on the grid of one cell holding the last code point U+10FFFF,
    searched from that character, the start character occurs in the
    grid and no length is returned.  [dfs_longest] on that cell, which
    has no neighbour and for which its docstring promises 1, raises
    [ValueError]: [actions] asks [chr] for the code point after the
    last.  [find_longest_consecutive_path] raises it in turn, and with
    no amount of fuel does it return a length. *)
Theorem find_longest_last_char_raises :
  (∃ y, color_at [[LongestPath.max_code_point]] y
        = Some LongestPath.max_code_point) ∧
  (∀ fuel log,
     (LongestPath.dfs_longest (S fuel) last_char_problem 0 0 log).1
       = Raise ValueError) ∧
  (∀ fuel log,
     (LongestPath.find_longest_consecutive_path (S fuel)
        last_char_problem log).1 = Raise ValueError) ∧
  ∀ fuel v,
    (LongestPath.find_longest_consecutive_path fuel last_char_problem []).1
      ≠ Ok v.
Proof.
  split_and!.
  - by exists (0, 0).
  - intros fuel log. by vm_compute.
  - intros fuel log. by vm_compute.
  - intros [|fuel] v; by vm_compute.
Qed.

(** ** The subscripts the traversals evaluate *)

(** C4, for a flood fill and a [dfs_longest] started inside the grid:
    every subscript pair evaluated by [flood_fill_dfs], [dfs_longest],
    [find_longest_consecutive_path], [dfs] and [can_form_word_dfs] lies
    inside [0, rows) x [0, cols), for every grid, every fuel and every
    argument of the word search's [dfs]. *)
Theorem traversals_access_within_bounds
    {Color : Type} `{EqDecision Color} {char : Type} `{Countable char}
    (m : list (list Color)) (start : cell) (T R : Color)
    (lm : list (list LongestPath.char)) (lc : LongestPath.char)
    (from : cell)
    (b : list (list char)) (w : list char) (r c index : Z)
    (fuel : nat) (log0 : list access) (s : WordSearch.store) :
  in_bounds (grid_rows m) (grid_cols m) start →
  in_bounds (grid_rows lm) (grid_cols lm) from →
  extends_within (grid_rows m) (grid_cols m) log0
    (FloodFill.log
       (FloodFill.flood_fill_dfs fuel (FloodFill.init m start T R)
          (FloodFill.Store m log0)).2) ∧
  extends_within (grid_rows lm) (grid_cols lm) log0
    (LongestPath.dfs_longest fuel (LongestPath.init lm lc)
       from.1 from.2 log0).2 ∧
  extends_within (grid_rows lm) (grid_cols lm) log0
    (LongestPath.find_longest_consecutive_path fuel
       (LongestPath.init lm lc) log0).2 ∧
  extends_within (grid_rows b) (grid_cols b) (WordSearch.log s)
    (WordSearch.log
       (WordSearch.dfs fuel b w (grid_rows b) (grid_cols b) r c index s).2) ∧
  extends_within (grid_rows b) (grid_cols b) (WordSearch.log s)
    (WordSearch.log (WordSearch.can_form_word_dfs b w s).2).
Proof.
  intros Hstart Hfrom. split_and!.
  - by apply (flood_fill_dfs_log (FloodFill.init m start T R)).
  - destruct from as [fr fc].
    by apply (dfs_longest_log (LongestPath.init lm lc)).
  - apply (find_longest_log (LongestPath.init lm lc)).
  - apply dfs_log.
  - apply can_form_word_dfs_spec.
Qed.

(** C4 on small inputs; the word search's [dfs] is called outside the
    board, at (-5, 7). *)
Lemma traversals_access_within_bounds_witness :
  extends_within 1 2 []
    (FloodFill.log
       (FloodFill.flood_fill_dfs 9 (FloodFill.init [["X"; "Y"]] (0, 0) "X" "C")
          (FloodFill.Store [["X"; "Y"]] [])).2) ∧
  extends_within 2 2 []
    (LongestPath.dfs_longest 9 (LongestPath.init abcd_matrix 65) 1 1 []).2 ∧
  extends_within 2 2 []
    (LongestPath.find_longest_consecutive_path 9
       (LongestPath.init abcd_matrix 65) []).2 ∧
  extends_within 2 3 []
    (WordSearch.log
       (WordSearch.dfs 9 scenario_board (chars "CAT") 2 3 (-5) 7 0
          (WordSearch.Store ∅ [])).2) ∧
  extends_within 2 3 []
    (WordSearch.log
       (WordSearch.can_form_word_dfs scenario_board (chars "CAT")
          (WordSearch.Store ∅ [])).2).
Proof.
  apply (traversals_access_within_bounds [["X"; "Y"]] (0, 0) "X" "C"
           abcd_matrix 65 (1, 1) scenario_board (chars "CAT") (-5) 7 0 9 []
           (WordSearch.Store ∅ [])).
  - by apply (bool_decide_unpack _).
  - by apply (bool_decide_unpack _).
Defined.

(** Started at (-1, -1) on a grid of one cell, [flood_fill_dfs] loads
    and stores at the subscript pair (-1, -1), which Python resolves to
    the last cell: the cell is painted, and the log holds accesses
    outside [0, rows) x [0, cols). *)
Lemma flood_fill_dfs_start_unchecked :
  (FloodFill.flood_fill_dfs 9 negative_start_problem
     (FloodFill.Store [["X"]] [])).1 = Ok tt ∧
  FloodFill.matrix
    (FloodFill.flood_fill_dfs 9 negative_start_problem
       (FloodFill.Store [["X"]] [])).2 = [["C"]] ∧
  ¬ accesses_within 1 1
      (FloodFill.log
         (FloodFill.flood_fill_dfs 9 negative_start_problem
            (FloodFill.Store [["X"]] [])).2).
Proof.
  split_and!; [by vm_compute..|].
  by apply (bool_decide_unpack _).
Qed.

(** ** The other scenarios of the specification *)

Example flood_fill_scenario :
  let run := FloodFill.flood_fill_dfs 10 (FloodFill.init all_X (1, 1) "X" "C")
               (FloodFill.Store all_X []) in
  run.1 = Ok tt ∧ FloodFill.matrix run.2 = all_C.
Proof. by vm_compute. Qed.

(** The flood fill proper on the 3 x 3 scenario. *)
Example flood_fill_dfs_correct_all_X :
  ∃ n, ∀ k log0, ∃ m' log',
    FloodFill.flood_fill_dfs (n + k) (FloodFill.init all_X (1, 1) "X" "C")
      (FloodFill.Store all_X log0) = (Ok tt, FloodFill.Store m' log') ∧
    ∀ z, (reach all_X "X" (1, 1) z → color_at m' z = Some "C") ∧
         (¬ reach all_X "X" (1, 1) z → color_at m' z = color_at all_X z).
Proof.
  apply (flood_fill_dfs_correct all_X (1, 1) "X" "C").
  - by apply (bool_decide_unpack _).
  - by apply (bool_decide_unpack _).
  - discriminate.
Defined.

Example longest_path_scenario :
  (LongestPath.find_longest_consecutive_path 5
     (LongestPath.init abcd_matrix 65) []).1 = Ok 4.
Proof. by vm_compute. Qed.

(** ** Flood fill: edge behaviour *)

Lemma py_index_neg {A} (l : list A) i :
  - len l ≤ i < 0 → py_index l i = Some (Z.to_nat (len l + i)).
Proof.
  intros Hi. unfold py_index.
  rewrite bool_decide_eq_false_2 by lia. by rewrite bool_decide_eq_true_2.
Qed.

Lemma py_index_out_of_range {A} (l : list A) i :
  ¬ - len l ≤ i < len l → py_index l i = None.
Proof.
  intros Hi. unfold py_index.
  rewrite !bool_decide_eq_false_2 by lia. done.
Qed.

Lemma py_index_Some {A} (l : list A) i k :
  py_index l i = Some k →
  (k < length l)%nat ∧ - len l ≤ i < len l.
Proof.
  unfold py_index, len. repeat case_bool_decide; intros [= <-]; lia.
Qed.

(** Outside Python's index range a subscript pair raises [IndexError]. *)
Lemma grid_get_out_of_range {A} (g : list (list A)) r c :
  rectangular g →
  ¬ (- grid_rows g ≤ r < grid_rows g ∧ - grid_cols g ≤ c < grid_cols g) →
  grid_get g r c = Raise IndexError.
Proof.
  intros Hg Hout. unfold grid_get, getitem.
  destruct (py_index g r) as [i|] eqn:Hi; [|done]. simpl.
  apply py_index_Some in Hi as [Hi Hr].
  destruct (lookup_lt_is_Some_2 g i Hi) as [row Hrow]. rewrite Hrow.
  pose proof (grid_cols_lookup g i row Hg Hrow) as Hlen.
  rewrite py_index_out_of_range; [done|].
  unfold grid_rows in Hout. lia.
Qed.

(** A negative subscript pair inside Python's index range reads and
    stores at the cell counted from the end. *)
Lemma grid_get_neg {A} (g : list (list A)) r c :
  rectangular g → - grid_rows g ≤ r < 0 → - grid_cols g ≤ c < 0 →
  grid_get g r c = grid_get g (grid_rows g + r) (grid_cols g + c).
Proof.
  intros Hg Hr Hc. unfold grid_get, getitem, grid_rows in *.
  rewrite py_index_neg, py_index_nonneg by lia. simpl.
  destruct (g !! Z.to_nat (len g + r)) as [row|] eqn:Hrow; [|done].
  pose proof (grid_cols_lookup g _ row Hg Hrow) as Hlen.
  rewrite py_index_neg, py_index_nonneg by lia. simpl.
  by rewrite Hlen.
Qed.

Lemma grid_set_neg {A} (g : list (list A)) r c v :
  rectangular g → - grid_rows g ≤ r < 0 → - grid_cols g ≤ c < 0 →
  grid_set g r c v = grid_set g (grid_rows g + r) (grid_cols g + c) v.
Proof.
  intros Hg Hr Hc. unfold grid_set, grid_rows in *.
  rewrite py_index_neg, py_index_nonneg by lia.
  destruct (g !! Z.to_nat (len g + r)) as [row|] eqn:Hrow; [|done].
  pose proof (grid_cols_lookup g _ row Hg Hrow) as Hlen.
  rewrite py_index_neg, py_index_nonneg by lia.
  by rewrite Hlen.
Qed.

Section flood_fill_edges.
Import FloodFill.
Context {Color : Type} `{EqDecision Color}.
Implicit Types (p : @FloodFillProblem Color) (s : @store Color).

(** A cell none of whose axis neighbours holds the target colour has no
    children. *)
Lemma actions_no_children p x s :
  rectangular (matrix s) →
  rows p = grid_rows (matrix s) → cols p = grid_cols (matrix s) →
  (∀ y, adjacent4 x y → color_at (matrix s) y ≠ Some (target_color p)) →
  ∃ log', actions p x s = (Ok [], Store (matrix s) log').
Proof.
  intros Hg Hrows Hcols Hnone.
  pose proof (actions_rect p x s Hg Hrows Hcols) as Hact.
  destruct (actions_safe p x s) as (Hm & _ & _).
  destruct (actions p x s) as [o [m' log']]. cbn [fst snd matrix] in *.
  subst o m'. exists log'. f_equal. f_equal.
  destruct (filter _ _) as [|y l] eqn:Hfilter; [done|].
  assert (y ∈ filter (λ y, color_at (matrix s) y = Some (target_color p))
                 (neighbours4 x)) as Hy by (rewrite Hfilter; by left).
  apply list_elem_of_filter in Hy as [Hy Hadj%adjacent4_neighbours].
  by destruct (Hnone y Hadj).
Qed.

(** With the replacement colour equal to the target colour and a start
    cell of that colour none of whose axis neighbours has it,
    [flood_fill_dfs] returns after one iteration and the matrix is as it
    was. *)
Theorem flood_fill_dfs_same_color_isolated
    (m : list (list Color)) (start : cell) (T : Color) fuel log0 :
  rectangular m →
  color_at m start = Some T →
  Forall (λ nb, color_at m nb ≠ Some T) (neighbours4 start) →
  (flood_fill_dfs (S fuel) (init m start T T) (Store m log0)).1 = Ok tt ∧
  matrix (flood_fill_dfs (S fuel) (init m start T T) (Store m log0)).2 = m.
Proof.
  intros Hg Hstart Hall.
  assert (∀ nb, adjacent4 start nb → color_at m nb ≠ Some T) as Hnone.
  { intros nb Hnb%adjacent4_neighbours.
    by apply (proj1 (Forall_forall _ _) Hall). }
  clear Hall. unfold flood_fill_dfs.
  destruct start as [r c]. cbn [init initial target_color replacement_color].
  pose proof (color_at_grid_get _ _ _ Hstart) as Hget.
  pose proof (grid_set_id _ _ _ Hstart) as Hset. cbn [fst snd] in *.
  erewrite bind_Ok; [|by rewrite read_cell_eq; cbn [matrix]; rewrite Hget].
  rewrite decide_False by tauto.
  erewrite bind_Ok; [|by unfold write_cell; cbn [matrix]; rewrite Hset].
  cbn [while_stack log matrix].
  destruct (actions_no_children (init m (r, c) T T) (r, c)
              (Store m (Write r c :: Read r c :: log0)))
    as [log' Hact]; [done..|].
  erewrite bind_Ok; [|done]. cbn [for_in]. unfold bind, ret.
  by destruct fuel.
Qed.

(** A start coordinate outside Python's index range makes
    [flood_fill_dfs] raise [IndexError] at its first subscript, before
    any store; an empty matrix does so for every start. *)
Theorem flood_fill_dfs_start_out_of_range
    (m : list (list Color)) (r c : Z) (T R : Color) fuel log0 :
  rectangular m →
  ¬ (- grid_rows m ≤ r < grid_rows m ∧ - grid_cols m ≤ c < grid_cols m) →
  flood_fill_dfs fuel (init m (r, c) T R) (Store m log0)
    = (Raise IndexError, Store m (Read r c :: log0)).
Proof.
  intros Hg Hout. unfold flood_fill_dfs. cbn [init initial].
  unfold bind. rewrite read_cell_eq. cbn [matrix log].
  by rewrite grid_get_out_of_range.
Qed.

(** A start coordinate with two negative subscripts inside Python's
    index range names the cell counted from the end: if that cell holds
    the target colour, it is painted, and the fill does not spread from
    it, whatever its neighbours hold, because every neighbour of the
    negative coordinate fails the bounds test. *)
Theorem flood_fill_dfs_negative_start
    (m : list (list Color)) (r c : Z) (T R : Color) fuel log0 :
  rectangular m →
  - grid_rows m ≤ r < 0 → - grid_cols m ≤ c < 0 →
  color_at m (grid_rows m + r, grid_cols m + c) = Some T →
  ∃ m', (flood_fill_dfs (S fuel) (init m (r, c) T R) (Store m log0)).1
          = Ok tt ∧
        matrix (flood_fill_dfs (S fuel) (init m (r, c) T R)
                  (Store m log0)).2 = m' ∧
        ∀ z, color_at m' z =
               if decide (z = (grid_rows m + r, grid_cols m + c))
               then Some R else color_at m z.
Proof.
  intros Hg Hr Hc Hcell.
  assert (in_bounds (grid_rows m) (grid_cols m)
            (grid_rows m + r, grid_cols m + c)) as Hin
    by (split; simpl; lia).
  destruct (grid_set_spec m _ R Hg Hin) as (m' & Hset & Hg' & Hr' & Hc' & Hcol).
  exists m'.
  pose proof (color_at_grid_get _ _ _ Hcell) as Hget. cbn [fst snd] in *.
  unfold flood_fill_dfs. cbn [init initial target_color replacement_color].
  erewrite bind_Ok;
    [|by rewrite read_cell_eq; cbn [matrix]; rewrite grid_get_neg, Hget].
  rewrite decide_False by tauto.
  erewrite bind_Ok;
    [|by unfold write_cell; cbn [matrix]; rewrite grid_set_neg, Hset].
  cbn [while_stack log matrix].
  destruct (actions_no_children (init m (r, c) T R) (r, c)
              (Store m' (Write r c :: Read r c :: log0)))
    as [log' Hact]; [done|by cbn; congruence..| |].
  { intros [yr yc] Hadj Hy. cbn [matrix] in Hy.
    apply color_at_Some in Hy as (? & ? & _).
    unfold adjacent4 in Hadj. simpl in *. lia. }
  erewrite bind_Ok; [|done]. cbn [for_in]. unfold bind, ret.
  by destruct fuel.
Qed.

(** Running the same fill a second time changes nothing: after the
    first run the start cell no longer holds the target colour, and the
    second run returns at its first test. *)
Theorem flood_fill_dfs_idempotent (m : list (list Color)) start T R :
  rectangular m → in_bounds (grid_rows m) (grid_cols m) start → T ≠ R →
  ∃ n, ∀ k log0, ∃ m' log',
    flood_fill_dfs (n + k) (init m start T R) (Store m log0)
      = (Ok tt, Store m' log') ∧
    ∀ fuel log1,
      (flood_fill_dfs fuel (init m' start T R) (Store m' log1)).1 = Ok tt ∧
      matrix (flood_fill_dfs fuel (init m' start T R) (Store m' log1)).2
        = m'.
Proof.
  intros Hg Hin HTR.
  destruct (flood_fill_dfs_fills m start T R Hg Hin HTR) as [n Hrun].
  exists n. intros k log0.
  destruct (Hrun k log0) as (m' & log' & Hfirst & Hcells).
  exists m', log'. split; [done|]. intros fuel log1.
  destruct (proj2 (color_at_in_bounds _ _ Hg) Hin) as [x Hx].
  assert (∃ x', color_at m' start = Some x' ∧ x' ≠ T) as (x' & Hx' & Hne).
  { destruct (Hcells start) as [Hreach Hother].
    destruct (decide (x = T)) as [->|Hne].
    - exists R. split; [|done]. apply Hreach. by apply reach_start.
    - exists x. split; [|done]. rewrite Hother; [done|].
      intros Hz%reach_start_color. congruence. }
  pose proof (color_at_grid_get _ _ _ Hx') as Hget.
  unfold flood_fill_dfs. destruct start as [r c]. cbn [init initial fst snd] in *.
  unfold bind. rewrite read_cell_eq. cbn [matrix log]. rewrite Hget.
  cbn [target_color]. by rewrite decide_True.
Qed.

(** [FloodFillProblem.actions] on a rectangular matrix: it returns, in
    the order right, left, down, up, exactly the neighbours inside the
    bounds that hold the target colour, and leaves the matrix as it
    was. *)
Theorem actions_target_neighbours (m : list (list Color)) start T R x log0 :
  rectangular m →
  ∃ log',
    actions (init m start T R) x (Store m log0)
      = (Ok (filter (λ y, color_at m y = Some T) (neighbours4 x)),
         Store m log').
Proof.
  intros Hg.
  pose proof (actions_rect (init m start T R) x (Store m log0) Hg
                eq_refl eq_refl) as Hact.
  destruct (actions_safe (init m start T R) x (Store m log0)) as (Hm & _ & _).
  destruct (actions _ x _) as [o [m' log']]. cbn [fst snd matrix] in *.
  subst o m'. by exists log'.
Qed.

End flood_fill_edges.

(** ** Longest path: the length returned is the longest *)

Lemma adjacent8_neighbours x y : adjacent8 x y ↔ y ∈ neighbours8 x.
Proof.
  destruct x as [r c], y as [r' c']. unfold adjacent8, neighbours8. simpl.
  rewrite !elem_of_cons, elem_of_nil. split.
  - intros Hadj.
    assert ((r' = r - 1 ∨ r' = r ∨ r' = r + 1) ∧
            (c' = c - 1 ∨ c' = c ∨ c' = c + 1) ∧
            ¬ (r' = r ∧ c' = c)) as (Hr & Hc & Hne) by lia.
    destruct Hr as [-> |[-> | ->]], Hc as [-> |[-> | ->]];
      try (exfalso; by apply Hne);
      repeat (first [left; f_equal; lia | right]).
  - intros Hin.
    repeat (destruct Hin as [Heq|Hin]; [injection Heq as -> ->; lia|]).
    done.
Qed.

Section longest_path_max.
Import LongestPath.
Implicit Types (p : LongestConsecutivePathProblem) (log : list access).

(** On a rectangular grid [actions] returns, in the order of [deltas],
    exactly the neighbours that hold the successor of the character of
    the cell. *)
Lemma longest_actions_rect p r c log x :
  grid_of (matrix p) (rows p) (cols p) →
  color_at (matrix p) (r, c) = Some x →
  0 ≤ x + 1 ≤ max_code_point →
  (actions p (r, c) log).1 =
    Ok (filter (λ y, color_at (matrix p) y = Some (x + 1))
          (neighbours8 (r, c))).
Proof.
  intros (Hg & Hrows & Hcols) Hx Hnext. unfold actions.
  pose proof (color_at_grid_get _ _ _ Hx) as Hget. cbn [fst snd] in Hget.
  unfold bind at 1, read_cell. rewrite Hget.
  unfold bind at 1, lift, ord. rewrite chr_Ok by done.
  set (P := λ y : cell, color_at (matrix p) y = Some (x + 1)).
  apply (for_in_ind
    (λ pre acc _, acc = filter P ((λ d, (r + d.1, c + d.2)) <$> pre))
    (λ res, res.1 = Ok (filter P (neighbours8 (r, c))))).
  - intros pre [dr dc] suf acc log' _ ->.
    rewrite fmap_app, filter_app. simpl.
    destruct (bool_decide (0 ≤ r + dr < rows p) &&
              bool_decide (0 ≤ c + dc < cols p)) eqn:Hb; simpl.
    + apply andb_true_iff in Hb as [Hr%bool_decide_eq_true
                                      Hc%bool_decide_eq_true].
      assert (in_bounds (grid_rows (matrix p)) (grid_cols (matrix p))
                (r + dr, c + dc)) as Hin.
      { split; simpl; congruence. }
      destruct (proj2 (color_at_in_bounds _ _ Hg) Hin) as [v Hv].
      pose proof (color_at_grid_get _ _ _ Hv) as Hget'. simpl in Hget'.
      unfold bind, read_cell. rewrite Hget'.
      destruct (decide (v = x + 1)) as [->|Hne]; simpl.
      * by rewrite filter_cons_True.
      * rewrite filter_cons_False, app_nil_r; [done|].
        unfold P. congruence.
    + rewrite filter_cons_False, app_nil_r; [done|].
      intros HP.
      assert (in_bounds (grid_rows (matrix p)) (grid_cols (matrix p))
                (r + dr, c + dc)) as [Hr Hc].
      { apply color_at_in_bounds; [done|]. by eexists. }
      simpl in *. rewrite <- Hrows, <- Hcols in *.
      rewrite !bool_decide_eq_true_2 in Hb by done. done.
  - by intros acc log' ->.
  - done.
Qed.

(** The length [dfs_longest] returns from a cell is the length of some
    chain from that cell, and no chain from that cell is longer. *)
Lemma dfs_longest_max p fuel : ∀ r c log x,
  grid_of (matrix p) (rows p) (cols p) →
  (∀ y ch, color_at (matrix p) y = Some ch → 0 ≤ ch < max_code_point) →
  color_at (matrix p) (r, c) = Some x →
  max_code_point + 1 - x < Z.of_nat fuel →
  ∃ v log', dfs_longest fuel p r c log = (Ok v, log') ∧
    (∃ rest, chain (matrix p) (r, c) rest ∧ v = 1 + len rest) ∧
    (∀ rest, chain (matrix p) (r, c) rest → 1 + len rest ≤ v).
Proof.
  induction fuel as [|fuel IH]; intros r c log x Hgrid Hchars Hx Hfuel.
  { specialize (Hchars _ _ Hx). lia. }
  cbn [dfs_longest]. unfold bind at 1.
  pose proof (Hchars _ _ Hx) as Hxrange.
  pose proof (longest_actions_rect p r c log x Hgrid Hx) as Hact.
  destruct (actions p (r, c) log) as [o log1]. cbn [fst] in Hact.
  rewrite Hact by lia. clear Hact.
  set (children := filter _ _).
  assert (∀ y, y ∈ children ↔
               adjacent8 (r, c) y ∧ color_at (matrix p) y = Some (x + 1))
    as Hchildren.
  { intros y. unfold children.
    rewrite list_elem_of_filter, adjacent8_neighbours. tauto. }
  apply (for_in_ind
    (λ pre acc _,
       (∃ rest, chain (matrix p) (r, c) rest ∧ acc = 1 + len rest) ∧
       (∀ y rest, y ∈ pre → chain (matrix p) y rest →
                  1 + len (y :: rest) ≤ acc) ∧ 1 ≤ acc)
    (λ res, ∃ v log', res = (Ok v, log') ∧
       (∃ rest, chain (matrix p) (r, c) rest ∧ v = 1 + len rest) ∧
       (∀ rest, chain (matrix p) (r, c) rest → 1 + len rest ≤ v))).
  - intros pre [nr nc] suf acc log' Hl (Hsome & Hall & Hacc).
    assert ((nr, nc) ∈ children) as Hin.
    { rewrite Hl, elem_of_app, elem_of_cons. tauto. }
    apply Hchildren in Hin as [Hadj Hcolor].
    destruct (IH nr nc log' (x + 1)) as (v & log'' & Hrun & Hv & Hvmax);
      [done..|lia|].
    unfold bind. rewrite Hrun.
    assert (∀ y rest, y ∈ pre ++ [(nr, nc)] → chain (matrix p) y rest →
              1 + len (y :: rest) ≤ Z.max acc (1 + v)) as Hall'.
    { intros y rest Hy Hchain. apply elem_of_app in Hy as [Hy|Hy].
      - specialize (Hall y rest Hy Hchain). lia.
      - apply list_elem_of_singleton in Hy as ->.
        specialize (Hvmax rest Hchain). unfold len in *. simpl. lia. }
    case_bool_decide as Hcmp; unfold ret.
    + split_and!; [| |lia].
      * destruct Hv as (rest & Hchain & ->).
        exists ((nr, nc) :: rest). split; [by eapply chain_step|].
        unfold len. simpl. lia.
      * intros y rest Hy Hchain. specialize (Hall' y rest Hy Hchain). lia.
    + split_and!; [done| |done].
      intros y rest Hy Hchain. specialize (Hall' y rest Hy Hchain). lia.
  - intros acc log' (Hsome & Hall & Hacc). exists acc, log'.
    split_and!; [done..|].
    intros rest Hchain. inversion Hchain as [|? y rest' ch Hx' Hadj Hy Hrest];
      subst; [unfold len; simpl; lia|].
    assert (ch = x) as -> by congruence.
    assert (y ∈ children) as Hin by by apply Hchildren.
    specialize (Hall y rest' Hin Hrest). unfold len in *. simpl in *. lia.
  - split_and!; [|by intros ?? ?%elem_of_nil|lia].
    exists []. split; [|done]. apply chain_end. by eexists.
Qed.


(** One run of [find_longest_consecutive_path]: the length returned
    bounds every chain from a cell holding the start character, and is
    zero or the length of such a chain. *)
Lemma find_longest_max p fuel log :
  grid_of (matrix p) (rows p) (cols p) →
  (∀ y ch, color_at (matrix p) y = Some ch → 0 ≤ ch < max_code_point) →
  max_code_point + 1 < Z.of_nat fuel →
  ∃ v log', find_longest_consecutive_path fuel p log = (Ok v, log') ∧
    (∀ y rest, color_at (matrix p) y = Some (start_char p) →
               chain (matrix p) y rest → 1 + len rest ≤ v) ∧
    (v = 0 ∨ ∃ y rest, color_at (matrix p) y = Some (start_char p) ∧
                       chain (matrix p) y rest ∧ v = 1 + len rest).
Proof.
  intros Hgrid Hchars Hfuel. unfold find_longest_consecutive_path.
  set (occurs := λ y, color_at (matrix p) y = Some (start_char p)).
  set (Inv := λ (P : cell → Prop) (acc : Z),
    (∀ y rest, P y → occurs y → chain (matrix p) y rest →
               1 + len rest ≤ acc) ∧
    (acc = 0 ∨ ∃ y rest, occurs y ∧ chain (matrix p) y rest ∧
                         acc = 1 + len rest)).
  set (Pout := λ (pre : list Z) (y : cell), y.1 ∈ pre ∧ y.2 ∈ range (cols p)).
  apply (for_in_ind (λ pre acc _, Inv (Pout pre) acc)
    (λ res, ∃ v log', res = (Ok v, log') ∧
       (∀ y rest, occurs y → chain (matrix p) y rest → 1 + len rest ≤ v) ∧
       (v = 0 ∨ ∃ y rest, occurs y ∧ chain (matrix p) y rest ∧
                          v = 1 + len rest))).
  - intros pre r suf acc log0 Hrange Hacc.
    assert (0 ≤ r < rows p) as Hr.
    { in_range Hrange. }
    set (Pin := λ (pre' : list Z) (y : cell),
      Pout pre y ∨ (y.1 = r ∧ y.2 ∈ pre')).
    enough (∃ v log', for_in (range (cols p)) (λ c longest_path,
                x <- read_cell p r c ;;
                if decide (x = start_char p) then
                  length <- dfs_longest fuel p r c ;;
                  if bool_decide (length > longest_path) then ret length
                  else ret longest_path
                else ret longest_path) acc log0 = (Ok v, log') ∧
              Inv (Pout (pre ++ [r])) v) as (v & log' & -> & Hv) by done.
    apply (for_in_ind (λ pre' acc' _, Inv (Pin pre') acc')
      (λ res, ∃ v log', res = (Ok v, log') ∧ Inv (Pout (pre ++ [r])) v)).
    + intros pre' c suf' acc' log1 Hrange' [Hbound Hsome].
      assert (0 ≤ c < cols p) as Hc.
      { in_range Hrange'. }
      destruct Hgrid as (Hg & Hrows & Hcols).
      assert (in_bounds (grid_rows (matrix p)) (grid_cols (matrix p)) (r, c))
        as Hin by (split; simpl; lia).
      destruct (proj2 (color_at_in_bounds _ _ Hg) Hin) as [x Hx].
      pose proof (color_at_grid_get _ _ _ Hx) as Hget. cbn [fst snd] in Hget.
      unfold bind at 1, read_cell. rewrite Hget.
      assert (∀ y, Pin (pre' ++ [c]) y → Pin pre' y ∨ y = (r, c)) as HPin.
      { intros [yr yc]. unfold Pin. simpl.
        rewrite elem_of_app, list_elem_of_singleton.
        intros [?|[-> [?| ->]]]; tauto. }
      destruct (decide (x = start_char p)) as [->|Hne].
      * destruct (dfs_longest_max p fuel r c (Read r c :: log1)
                    (start_char p)) as (v & log2 & Hrun & Hv & Hvmax);
          [done..| |].
        { specialize (Hchars _ _ Hx). lia. }
        unfold bind. rewrite Hrun.
        assert (occurs (r, c)) as Hocc by done.
        assert (∀ y rest, Pin (pre' ++ [c]) y → occurs y →
                  chain (matrix p) y rest →
                  1 + len rest ≤ Z.max acc' v) as Hbound'.
        { intros y rest Hy Hy' Hchain. apply HPin in Hy as [Hy| ->].
          - specialize (Hbound y rest Hy Hy' Hchain). lia.
          - specialize (Hvmax rest Hchain). lia. }
        destruct Hv as (rest & Hchain & Hveq).
        case_bool_decide; unfold ret; split.
        -- intros y rest' Hy Hy' Hchain'.
           specialize (Hbound' y rest' Hy Hy' Hchain'). lia.
        -- right. by exists (r, c), rest.
        -- intros y rest' Hy Hy' Hchain'.
           specialize (Hbound' y rest' Hy Hy' Hchain'). lia.
        -- destruct Hsome as [->|?]; [|by right]. unfold len in *. lia.
      * unfold ret. split; [|done].
        intros y rest Hy Hy' Hchain. apply HPin in Hy as [Hy| ->].
        -- by apply (Hbound y).
        -- unfold occurs in Hy'. congruence.
    + intros acc' log1 [Hbound Hsome]. exists acc', log1. split; [done|].
      split; [|done]. intros y rest Hy. apply (Hbound y).
      destruct y as [yr yc]. unfold Pin, Pout in *. simpl in *.
      rewrite elem_of_app, list_elem_of_singleton in Hy. tauto.
    + destruct Hacc as [Hbound Hsome]. split; [|done].
      intros y rest [Hy|[_ Hy]]; [by apply (Hbound y)|].
      by apply elem_of_nil in Hy.
  - intros acc log' [Hbound Hsome]. exists acc, log'. split; [done|].
    split; [|done]. intros y rest Hy. apply (Hbound y); [|done].
    destruct Hgrid as (Hg & Hrows & Hcols).
    assert (in_bounds (grid_rows (matrix p)) (grid_cols (matrix p)) y)
      as [? ?] by (apply color_at_in_bounds; [done | by eexists]).
    split; apply elem_of_range; lia.
  - split; [|by left]. intros y rest [Hy _]. by apply elem_of_nil in Hy.
Qed.

End longest_path_max.

(** The length [dfs_longest] returns from a cell inside a rectangular
    grid whose characters are below the last code point is the number
    of cells of the longest chain of successive characters from that
    cell, for every fuel from some amount on. *)
Theorem dfs_longest_is_longest
    (m : list (list LongestPath.char)) (c0 : LongestPath.char) (r c : Z) :
  rectangular m → chars_below_last m →
  in_bounds (grid_rows m) (grid_cols m) (r, c) →
  ∃ n v,
    (∀ k log,
       (LongestPath.dfs_longest (n + k) (LongestPath.init m c0) r c log).1
         = Ok v) ∧
    (∃ rest, chain m (r, c) rest ∧ v = 1 + len rest) ∧
    (∀ rest, chain m (r, c) rest → 1 + len rest ≤ v).
Proof.
  intros Hg Hchars Hin.
  destruct (proj2 (color_at_in_bounds _ _ Hg) Hin) as [x Hx].
  set (n := Z.to_nat (LongestPath.max_code_point + 2)).
  assert (∀ k log, ∃ v log',
            LongestPath.dfs_longest (n + k) (LongestPath.init m c0) r c log
              = (Ok v, log') ∧
            (∃ rest, chain m (r, c) rest ∧ v = 1 + len rest) ∧
            (∀ rest, chain m (r, c) rest → 1 + len rest ≤ v)) as Hrun.
  { intros k log.
    apply (dfs_longest_max (LongestPath.init m c0) (n + k) r c log x);
      [done| |done|].
    - intros y ch. by apply chars_below_last_color_at.
    - pose proof (chars_below_last_color_at _ _ _ Hchars Hx). lia. }
  destruct (Hrun 0%nat []) as (v & _ & _ & Hv & Hvmax).
  exists n, v. split_and!; [|done..].
  intros k log. destruct (Hrun k log) as (v' & log' & -> & Hv' & Hvmax').
  destruct Hv as (rest & Hchain & ->), Hv' as (rest' & Hchain' & ->).
  specialize (Hvmax _ Hchain'). specialize (Hvmax' _ Hchain).
  cbn [fst]. f_equal. lia.
Qed.

(** The length [find_longest_consecutive_path] returns on such a grid
    is the number of cells of the longest chain of successive
    characters that starts on a cell holding the start character, and
    zero if there is none. *)
Theorem find_longest_consecutive_path_is_longest
    (m : list (list LongestPath.char)) (c : LongestPath.char) :
  rectangular m → chars_below_last m →
  ∃ n v,
    (∀ k log,
       (LongestPath.find_longest_consecutive_path (n + k)
          (LongestPath.init m c) log).1 = Ok v) ∧
    (∀ y rest, color_at m y = Some c → chain m y rest → 1 + len rest ≤ v) ∧
    (v = 0 ∨ ∃ y rest, color_at m y = Some c ∧ chain m y rest ∧
                       v = 1 + len rest).
Proof.
  intros Hg Hchars.
  set (n := Z.to_nat (LongestPath.max_code_point + 2)).
  assert (∀ k log, ∃ v log',
            LongestPath.find_longest_consecutive_path (n + k)
              (LongestPath.init m c) log = (Ok v, log') ∧
            (∀ y rest, color_at m y = Some c → chain m y rest →
                       1 + len rest ≤ v) ∧
            (v = 0 ∨ ∃ y rest, color_at m y = Some c ∧ chain m y rest ∧
                               v = 1 + len rest)) as Hrun.
  { intros k log.
    apply (find_longest_max (LongestPath.init m c) (n + k) log); [done| |lia].
    intros y ch. by apply chars_below_last_color_at. }
  destruct (Hrun 0%nat []) as (v & _ & _ & Hvmax & Hv).
  exists n, v. split_and!; [|done..].
  intros k log. destruct (Hrun k log) as (v' & log' & -> & Hvmax' & Hv').
  cbn [fst]. f_equal.
  assert (∀ u u' : Z,
            (∀ y rest, color_at m y = Some c → chain m y rest →
                       1 + len rest ≤ u) →
            (u' = 0 ∨ ∃ y rest, color_at m y = Some c ∧ chain m y rest ∧
                                u' = 1 + len rest) →
            0 ≤ u → u' ≤ u) as Hle.
  { intros u u' Hmax [->|(y & rest & Hy & Hchain & ->)] Hu; [done|].
    by apply (Hmax y). }
  assert (∀ u : Z,
            (u = 0 ∨ ∃ y rest, color_at m y = Some c ∧ chain m y rest ∧
                               u = 1 + len rest) → 0 ≤ u) as Hnonneg.
  { intros u [->|(y & rest & _ & _ & ->)]; unfold len; lia. }
  pose proof (Hle v v' Hvmax Hv' (Hnonneg v Hv)).
  pose proof (Hle v' v Hvmax' Hv (Hnonneg v' Hv')). lia.
Qed.

(** [LongestConsecutivePathProblem.actions] on a rectangular grid, from
    a cell whose character has a successor: it returns, in the order of
    [deltas], exactly the neighbours that hold that successor. *)
Theorem longest_actions_successor_neighbours
    (m : list (list LongestPath.char)) (c0 : LongestPath.char)
    (r c : Z) (x : LongestPath.char) log :
  rectangular m → color_at m (r, c) = Some x →
  0 ≤ x + 1 ≤ LongestPath.max_code_point →
  (LongestPath.actions (LongestPath.init m c0) (r, c) log).1
    = Ok (filter (λ y, color_at m y = Some (x + 1)) (neighbours8 (r, c))).
Proof.
  intros Hg Hx Hnext.
  by apply (longest_actions_rect (LongestPath.init m c0) r c log x).
Qed.

(** When the start character is the last code point and occurs in a
    rectangular grid, [find_longest_consecutive_path] raises
    [ValueError]: [actions] asks [chr] for the code point after it. *)
Theorem find_longest_last_char_ValueError
    (m : list (list LongestPath.char)) fuel log :
  rectangular m →
  (∃ z, color_at m z = Some LongestPath.max_code_point) →
  (LongestPath.find_longest_consecutive_path (S fuel)
     (LongestPath.init m LongestPath.max_code_point) log).1
    = Raise ValueError.
Proof.
  intros Hg [[zr zc] Hz].
  assert (in_bounds (grid_rows m) (grid_cols m) (zr, zc)) as [Hzr Hzc]
    by (apply color_at_in_bounds; [done | by eexists]).
  simpl in Hzr, Hzc.
  unfold LongestPath.find_longest_consecutive_path.
  cbn [LongestPath.init LongestPath.rows LongestPath.cols
       LongestPath.start_char].
  apply (for_in_ind (λ pre _ _, zr ∉ pre) (λ res, res.1 = Raise ValueError)).
  - intros pre r suf acc log0 Hrange Hpre.
    assert (0 ≤ r < grid_rows m) as Hr.
    { in_range Hrange. }
    set (row_loop := for_in (range (grid_cols m)) _ acc log0).
    enough (match row_loop with
            | (Ok _, _) => r ≠ zr
            | (Raise e, _) => e = ValueError
            | (OutOfFuel, _) => False
            end) as Hrow.
    { destruct row_loop as [[v|e|] log']; [|by subst|done].
      rewrite elem_of_app, list_elem_of_singleton. naive_solver. }
    unfold row_loop.
    apply (for_in_ind (λ pre' _ _, r = zr → zc ∉ pre')
      (λ res, match res with
              | (Ok _, _) => r ≠ zr
              | (Raise e, _) => e = ValueError
              | (OutOfFuel, _) => False
              end)).
    + intros pre' c suf' acc' log1 Hrange' Hpre'.
      assert (0 ≤ c < grid_cols m) as Hc.
      { in_range Hrange'. }
      assert (in_bounds (grid_rows m) (grid_cols m) (r, c)) as Hin
        by (split; simpl; lia).
      destruct (proj2 (color_at_in_bounds _ _ Hg) Hin) as [x Hx].
      pose proof (color_at_grid_get _ _ _ Hx) as Hget. cbn [fst snd] in Hget.
      unfold bind at 1, LongestPath.read_cell.
      cbn [LongestPath.matrix LongestPath.init]. rewrite Hget.
      destruct (decide (x = LongestPath.max_code_point)) as [->|Hne].
      * cbn [LongestPath.dfs_longest]. unfold LongestPath.actions.
        unfold bind, LongestPath.read_cell.
        cbn [LongestPath.matrix LongestPath.init]. rewrite Hget.
        by vm_compute.
      * unfold ret. intros ->. rewrite elem_of_app, list_elem_of_singleton.
        intros [?| ->]; [by apply Hpre'|]. congruence.
    + intros acc' log1 Hpre' ->. apply Hpre'; [done|].
      by apply elem_of_range.
    + intros _. apply not_elem_of_nil.
  - intros acc log' Hpre. exfalso. apply Hpre. by apply elem_of_range.
  - apply not_elem_of_nil.
Qed.

(** ** Word search: a word is found exactly when it can be traced *)

Lemma grid_get_nonneg_color_at {A} (g : list (list A)) r c v :
  0 ≤ r → 0 ≤ c → grid_get g r c = Ok v → color_at g (r, c) = Some v.
Proof.
  intros Hr Hc. unfold grid_get, getitem, py_index.
  case_bool_decide; [|case_bool_decide; [lia|done]]. simpl.
  destruct (g !! Z.to_nat r) as [row|] eqn:Hrow; [|done].
  case_bool_decide; [|case_bool_decide; [lia|done]]. simpl.
  destruct (row !! Z.to_nat c) as [v'|] eqn:Hv; [|done].
  intros [= <-]. apply color_at_Some. simpl. split_and!; [done..|].
  by exists row.
Qed.

Lemma getitem_drop {A} (w : list A) index y :
  0 ≤ index → getitem w index = Ok y →
  drop (Z.to_nat index) w = y :: drop (Z.to_nat (index + 1)) w.
Proof.
  intros Hindex. unfold getitem, py_index.
  case_bool_decide; [|case_bool_decide; [lia|done]]. simpl.
  destruct (w !! Z.to_nat index) as [y'|] eqn:Hy; [|done].
  intros [= <-]. rewrite Z2Nat.inj_add by lia.
  rewrite Nat.add_1_r. by apply drop_S.
Qed.

Lemma deltas_neighbours8 r c dr dc :
  (dr, dc) ∈ @WordSearch.deltas → adjacent8 (r, c) (r + dr, c + dc).
Proof.
  intros Hd. apply adjacent8_neighbours.
  unfold WordSearch.deltas in Hd. unfold neighbours8. simpl.
  repeat (apply elem_of_cons in Hd as [[= -> ->]|Hd]; [set_solver|]).
  by apply elem_of_nil in Hd.
Qed.

Section word_search_traces.
Import WordSearch.
Context {char : Type} `{Countable char}.
Implicit Types (b : list (list char)) (w : list char) (s : store).

(** A call of [dfs] that returns [True] has traced the rest of the word
    from its cell, on cells that were not in the visited set. *)
Lemma dfs_sound b w rows cols fuel : ∀ r c index s s',
  0 ≤ index ≤ len w →
  dfs fuel b w rows cols r c index s = (Ok true, s') →
  ∃ ext, NoDup ext ∧ (∀ x, x ∈ ext → x ∉ visited s) ∧
         spells b (drop (Z.to_nat index) w) ext ∧
         (∀ y ext', ext = y :: ext' → y = (r, c)).
Proof.
  induction fuel as [|fuel IH]; intros r c index s s' Hindex; [done|].
  cbn [dfs].
  destruct (decide (index = len w)) as [->|Hne].
  { intros _. exists []. split_and!; [constructor|set_solver| |done].
    unfold len. rewrite Nat2Z.id, drop_all. done. }
  destruct (bool_decide (0 ≤ r < rows) && bool_decide (0 ≤ c < cols)) eqn:Hb;
    [|done].
  apply andb_true_iff in Hb as [Hr%bool_decide_eq_true Hc%bool_decide_eq_true].
  cbn [negb]. unfold bind at 1, read_cell.
  destruct (grid_get b r c) as [x|e|] eqn:Hget; [|done..].
  apply grid_get_nonneg_color_at in Hget; [|lia..].
  unfold bind at 1, lift.
  destruct (getitem w index) as [y|e|] eqn:Hy; [|done..].
  apply getitem_drop in Hy; [|lia].
  destruct (decide (x ≠ y)) as [|Hxy]; [done|].
  assert (x = y) as -> by (destruct (decide (x = y)); tauto).
  unfold bind at 1, visited_mem. cbn [visited log].
  case_bool_decide as Hseen; [done|].
  unfold bind at 1, visited_add. cbn [visited log].
  revert s'.
  apply (for_any_ind
    (λ _ s'', visited s'' = {[(r, c)]} ∪ visited s)
    (λ res, ∀ s', res = (Ok true, s') →
       ∃ ext, NoDup ext ∧ (∀ x, x ∈ ext → x ∉ visited s) ∧
              spells b (drop (Z.to_nat index) w) ext ∧
              (∀ y ext', ext = y :: ext' → y = (r, c)))); [| |done].
  - intros pre [dr dc] suf s'' Hdeltas Hs''.
    pose proof (dfs_frame b w rows cols fuel (r + dr) (c + dc) (index + 1) s'')
      as Hframe.
    specialize (IH (r + dr) (c + dc) (index + 1) s'').
    destruct (dfs fuel b w rows cols (r + dr) (c + dc) (index + 1) s'')
      as [[[]|e|] s3]; [| |done..].
    + intros s' [= <-].
      destruct (IH s3) as (ext & Hnd & Hnew & Hspells & Hhead); [lia|done|].
      exists ((r, c) :: ext). split_and!.
      * constructor; [|done]. intros Hin. apply (Hnew _ Hin).
        rewrite Hs''. set_solver.
      * intros z [->|Hz]%elem_of_cons; [done|].
        specialize (Hnew _ Hz). rewrite Hs'' in Hnew. set_solver.
      * rewrite Hy. cbn [spells]. split_and!; [done| |done].
        destruct ext as [|z ext']; [done|].
        rewrite (Hhead z ext' eq_refl). apply deltas_neighbours8.
        rewrite Hdeltas, elem_of_app, elem_of_cons. tauto.
      * by intros z ext' [= <- _].
    + rewrite Hframe by lia. done.
  - intros s'' Hs''. unfold bind, visited_remove.
    case_decide; [|done]. unfold ret. by intros s' [=].
Qed.

(** With enough fuel and on a rectangular board, a call of [dfs] from
    the first cell of a trace of the rest of the word that avoids the
    visited set returns [True]. *)
Lemma dfs_complete b w rows cols fuel : ∀ r c index s ext,
  grid_of b rows cols →
  0 ≤ index ≤ len w → len w - index < Z.of_nat fuel →
  NoDup ext → (∀ x, x ∈ ext → x ∉ visited s) →
  spells b (drop (Z.to_nat index) w) ext →
  (∀ y ext', ext = y :: ext' → y = (r, c)) →
  (dfs fuel b w rows cols r c index s).1 = Ok true.
Proof.
  induction fuel as [|fuel IH];
    intros r c index s ext Hgrid Hindex Hfuel Hnd Hnew Hspells Hhead; [lia|].
  cbn [dfs].
  destruct (decide (index = len w)) as [->|Hne]; [done|].
  destruct (getitem_nonneg w index) as (y & _ & Hy); [lia|].
  pose proof (getitem_drop w index y ltac:(lia) Hy) as Hdrop.
  rewrite Hdrop in Hspells.
  destruct ext as [|x0 ext]; [done|].
  rewrite (Hhead x0 ext eq_refl) in *. clear Hhead.
  cbn [spells] in Hspells. destruct Hspells as (Hcell & Hadj & Hspells).
  destruct Hgrid as (Hg & Hrows & Hcols).
  assert (in_bounds (grid_rows b) (grid_cols b) (r, c)) as [Hr Hc]
    by (apply color_at_in_bounds; [done | by eexists]).
  simpl in Hr, Hc. subst rows cols.
  rewrite !bool_decide_eq_true_2 by done. cbn [andb negb].
  pose proof (color_at_grid_get _ _ _ Hcell) as Hget. cbn [fst snd] in Hget.
  unfold bind at 1, read_cell. rewrite Hget.
  unfold bind at 1, lift. rewrite Hy.
  rewrite decide_False by tauto.
  unfold bind at 1, visited_mem. cbn [visited log].
  rewrite bool_decide_eq_false_2 by (apply Hnew; by left).
  unfold bind at 1, visited_add. cbn [visited log].
  apply NoDup_cons in Hnd as [Hfresh Hnd].
  (* the neighbour the trace goes to; any neighbour if the word ends *)
  assert (∃ dr dc, (dr, dc) ∈ @deltas ∧
            ∀ z ext', ext = z :: ext' → z = (r + dr, c + dc))
    as (dr0 & dc0 & Hd0 & Hnext).
  { destruct ext as [|z ext'].
    - exists (-1), (-1). split; [by left | done].
    - apply adjacent8_neighbours in Hadj.
      unfold neighbours8 in Hadj. simpl in Hadj.
      repeat (apply elem_of_cons in Hadj as [->|Hadj];
              [eexists _, _; split;
               [|intros ? ? [= <- _]; reflexivity]; set_solver|]).
      by apply elem_of_nil in Hadj. }
  apply (for_any_ind
    (λ pre s'', visited s'' = {[(r, c)]} ∪ visited s ∧ (dr0, dc0) ∉ pre)
    (λ res, res.1 = Ok true)).
  - intros pre [dr dc] suf s'' Hdeltas [Hs'' Hpre].
    destruct (decide ((dr, dc) = (dr0, dc0))) as [[= -> ->]|Hother].
    + assert ((dfs fuel b w (grid_rows b) (grid_cols b) (r + dr0) (c + dc0)
                 (index + 1) s'').1 = Ok true) as Hchild.
      { apply (IH _ _ _ _ ext); [done|lia|lia|done| |done|done].
        intros z Hz. rewrite Hs''. intros [->%elem_of_singleton|Hin]%elem_of_union;
          [done|]. apply (Hnew z); [by right | done]. }
      destruct (dfs _ _ _ _ _ _ _ _ s'') as [o s3]. cbn [fst] in Hchild.
      by subst o.
    + pose proof (dfs_frame b w (grid_rows b) (grid_cols b) fuel
                    (r + dr) (c + dc) (index + 1) s'') as Hframe.
      destruct (dfs fuel b w (grid_rows b) (grid_cols b) (r + dr) (c + dc)
                  (index + 1) s'') as [[[]|e|] s3].
      * done.
      * split; [rewrite Hframe by lia; done|].
        rewrite elem_of_app, list_elem_of_singleton. naive_solver.
      * destruct Hframe as [_ Hnot]; [lia|]. by destruct Hnot.
      * lia.
  - intros s'' [_ Hpre]. by destruct Hpre.
  - split; [done | apply not_elem_of_nil].
Qed.


(** A non-empty word that [can_form_word_dfs] accepts can be traced. *)
Lemma can_form_word_dfs_sound b w s :
  (can_form_word_dfs b w s).1 = Ok true → traceable b w.
Proof.
  unfold can_form_word_dfs.
  destruct (getitem w 0) as [a|e|] eqn:Ha; unfold bind at 1, lift; [|done..].
  apply (for_any_ind (λ _ _, True)
           (λ res, res.1 = Ok true → traceable b w)); [| |done].
  2:{ by intros s' _. }
  intros pre r suf s0 _ _.
  set (row_loop := for_any (range (grid_cols b)) _ _ s0).
  enough (row_loop.1 = Ok true → traceable b w) as Hrow.
  { by destruct row_loop as [[[]|e|] s1]. }
  unfold row_loop.
  apply (for_any_ind (λ _ _, True)
           (λ res, res.1 = Ok true → traceable b w)); [| |done].
  2:{ by intros s' _. }
  intros pre' c suf' s1 _ _.
  unfold bind at 1, read_cell.
  destruct (grid_get b r c) as [x|e|]; [|done..].
  destruct (decide (x = a)) as [_|_]; [|done].
  unfold bind, visited_new. cbn [visited log].
  destruct (dfs (S (length w)) b w (grid_rows b) (grid_cols b) r c 0 _)
    as [[[]|e|] s2] eqn:Hrun; [|done..].
  intros _. apply dfs_sound in Hrun as (ext & Hnd & _ & Hspells & _).
  - by exists ext.
  - unfold len. lia.
Qed.

(** On a rectangular board [can_form_word_dfs] accepts every non-empty
    word that can be traced. *)
Lemma can_form_word_dfs_complete b w s :
  rectangular b → w ≠ [] → traceable b w →
  (can_form_word_dfs b w s).1 = Ok true.
Proof.
  intros Hg Hw (path & Hnd & Hspells).
  destruct w as [|a w']; [done|]. set (w := a :: w') in *.
  destruct path as [|[r0 c0] path']; [done|].
  assert (color_at b (r0, c0) = Some a) as Hstart by apply Hspells.
  assert (in_bounds (grid_rows b) (grid_cols b) (r0, c0)) as [Hr0 Hc0]
    by (apply color_at_in_bounds; [done | by eexists]).
  simpl in Hr0, Hc0.
  unfold can_form_word_dfs.
  destruct (getitem_nonneg w 0) as (a' & Ha' & Hfirst).
  { unfold len. simpl. lia. }
  assert (a' = a) as -> by (simpl in Ha'; congruence).
  unfold bind at 1, lift. rewrite Hfirst.
  apply (for_any_ind (λ pre _, r0 ∉ pre) (λ res, res.1 = Ok true)).
  - intros pre r suf s0 Hrange Hpre.
    assert (0 ≤ r < grid_rows b) as Hr.
    { in_range Hrange. }
    set (row_loop := for_any (range (grid_cols b)) _ _ s0).
    enough (match row_loop.1 with
            | Ok true => True
            | Ok false => r ≠ r0
            | _ => False
            end) as Hrow.
    { destruct row_loop as [[[]|e|] s1]; cbn [fst] in Hrow; try done.
      rewrite elem_of_app, list_elem_of_singleton. naive_solver. }
    unfold row_loop.
    apply (for_any_ind (λ pre' _, r = r0 → c0 ∉ pre')
      (λ res, match res.1 with
              | Ok true => True
              | Ok false => r ≠ r0
              | _ => False
              end)).
    + intros pre' c suf' s1 Hrange' Hpre'.
      assert (0 ≤ c < grid_cols b) as Hc.
      { in_range Hrange'. }
      assert (in_bounds (grid_rows b) (grid_cols b) (r, c)) as Hin
        by (split; simpl; lia).
      destruct (proj2 (color_at_in_bounds _ _ Hg) Hin) as [x Hx].
      pose proof (color_at_grid_get _ _ _ Hx) as Hget. cbn [fst snd] in Hget.
      unfold bind at 1, read_cell. rewrite Hget.
      assert (∀ (P : Prop), (P → (r, c) ≠ (r0, c0)) → P →
                r = r0 → c0 ∉ pre' ++ [c]) as Hnext.
      { intros P HP HP' ->. rewrite elem_of_app, list_elem_of_singleton.
        intros [?| ->]; [by apply Hpre'|]. by apply HP. }
      destruct (decide (x = a)) as [->|Hxa].
      * unfold bind, visited_new. cbn [visited log].
        set (s2 := Store ∅ (Read r c :: log s1)).
        pose proof (dfs_frame b w (grid_rows b) (grid_cols b) (S (length w))
                      r c 0 s2) as Hframe.
        pose proof (dfs_complete b w (grid_rows b) (grid_cols b)
                      (S (length w)) r c 0 s2 ((r0, c0) :: path'))
          as Hcomplete.
        destruct (dfs (S (length w)) b w (grid_rows b) (grid_cols b) r c 0 s2)
          as [[[]|e|] s3]; cbn [fst] in *.
        -- done.
        -- apply (Hnext True); [|done]. intros _ [= -> ->].
           assert (@Ok bool false = Ok true) as Habs; [|done].
           apply Hcomplete;
             [done | unfold len; lia | unfold len; lia | done
             | set_solver | done | by intros ? ? [= <- _]].
        -- destruct Hframe as [_ Hnot]; [unfold len; lia|]. by apply Hnot.
        -- unfold len in Hframe. lia.
      * unfold ret. cbn [fst]. apply (Hnext True); [|done].
        intros _ [= -> ->]. congruence.
    + intros s1 Hpre'. unfold ret. cbn [fst]. intros ->.
      apply Hpre'; [done|]. by apply elem_of_range.
    + intros _. apply not_elem_of_nil.
  - intros s0 Hpre. exfalso. apply Hpre. by apply elem_of_range.
  - apply not_elem_of_nil.
Qed.


Lemma can_form_word_dfs_decides b w s :
  rectangular b → w ≠ [] →
  ∃ found, (can_form_word_dfs b w s).1 = Ok found ∧
           (found = true ↔ traceable b w).
Proof.
  intros Hg Hw.
  destruct (can_form_word_dfs_spec b w s) as [_ Hspec].
  pose proof (can_form_word_dfs_sound b w s) as Hsound.
  pose proof (can_form_word_dfs_complete b w s Hg Hw) as Hcomplete.
  destruct (can_form_word_dfs b w s).1 as [[]|e|].
  - exists true. split; [done|]. split; [by intros _; apply Hsound | done].
  - exists false. split; [done|]. split; [done|].
    intros Htrace. by specialize (Hcomplete Htrace).
  - by destruct Hspec as [_ [?|?]].
  - done.
Qed.

(** On a rectangular board [can_form_word_dfs] returns, for a non-empty
    word, [True] if the word can be traced through neighbouring cells
    without using a cell twice, and [False] if it cannot. *)
Theorem can_form_word_dfs_traceable b w s :
  rectangular b → w ≠ [] →
  ∃ found, (can_form_word_dfs b w s).1 = Ok found ∧
           (found = true ↔ traceable b w).
Proof. apply can_form_word_dfs_decides. Qed.

(** A word of one letter is found exactly when the letter is on the
    board. *)
Theorem single_letter_word_found b (a : char) s :
  rectangular b →
  ∃ found, (can_form_word_dfs b [a] s).1 = Ok found ∧
           (found = true ↔ ∃ x, color_at b x = Some a).
Proof.
  intros Hg.
  destruct (can_form_word_dfs_decides b [a] s Hg) as (found & Hrun & Hfound);
    [done|].
  exists found. split; [done|]. rewrite Hfound. split.
  - intros ([|x rest] & _ & Hspells); [done|].
    exists x. apply Hspells.
  - intros [x Hx]. exists [x]. split; [apply NoDup_singleton | by cbn].
Qed.

(** On a rectangular board and for a dictionary without the empty word,
    [find_all_words] returns the set of the dictionary words that can be
    traced; the order and the repetitions of the dictionary do not
    matter. *)
Theorem find_all_words_traceable b (d : list word) s :
  rectangular b → [] ∉ d →
  ∃ found, (find_all_words (init b d) s).1 = Ok found ∧
           ∀ w, w ∈ found ↔ w ∈ d ∧ traceable b w.
Proof.
  intros Hg Hd. unfold find_all_words. cbn [init dictionary board].
  apply (for_in_ind
    (λ pre (acc : gset word) _, ∀ w, w ∈ acc ↔ w ∈ pre ∧ traceable b w)
    (λ res, ∃ found, res.1 = Ok found ∧
                     ∀ w, w ∈ found ↔ w ∈ d ∧ traceable b w)).
  - intros pre w suf acc s' Hdict Hacc.
    assert (w ≠ []) as Hw.
    { intros ->. apply Hd. rewrite Hdict, elem_of_app, elem_of_cons. tauto. }
    destruct (can_form_word_dfs_decides b w s' Hg Hw)
      as (found & Hrun & Hfound).
    unfold bind. destruct (can_form_word_dfs b w s') as [o s''].
    cbn [fst] in Hrun. subst o.
    destruct found; unfold ret; intros w';
      rewrite elem_of_app, list_elem_of_singleton.
    + rewrite elem_of_union, elem_of_singleton, Hacc.
      split; [|naive_solver].
      intros [->|[? ?]]; [|tauto]. split; [by right | by apply Hfound].
    + rewrite Hacc. split; [tauto|].
      intros [[?| ->] Htrace]; [done|]. by apply Hfound in Htrace.
  - intros acc s' Hacc. by exists acc.
  - intros w. rewrite elem_of_nil. set_solver.
Qed.

End word_search_traces.

(** ** Word search: the visited set is the committed path *)

Section word_search_committed.
Import WordSearch.
Context {char : Type} `{Countable char}.
Implicit Types (b : list (list char)) (w : list char) (s : store).









End word_search_committed.

(** ** Flood fill: [expand] *)

Section expand_facts.
Import FloodFill.
Context {Color : Type} `{EqDecision Color} {Cost : Type} (zero_cost : Cost).
Implicit Types (p : @FloodFillProblem Color) (s : @store Color)
  (node : @Node Cost).

(** The loop of [expand]: one node for each action, each action painted. *)
Lemma expand_loop p node children yielded s :
  rectangular (matrix s) →
  rows p = grid_rows (matrix s) → cols p = grid_cols (matrix s) →
  Forall (in_bounds (rows p) (cols p)) children →
  ∃ s',
    for_in children (λ action yielded,
        s_next <- result p (state node) action ;;
        ret (yielded ++ [MkNode s_next (Some node) (Some action) zero_cost]))
      yielded s
      = (Ok (yielded ++
               ((λ y, MkNode y (Some node) (Some y) zero_cost) <$> children)),
         s') ∧
    rectangular (matrix s') ∧
    rows p = grid_rows (matrix s') ∧ cols p = grid_cols (matrix s') ∧
    ∀ z, color_at (matrix s') z =
           if decide (z ∈ children) then Some (replacement_color p)
           else color_at (matrix s) z.
Proof.
  intros Hg Hrows Hcols Hall.
  revert yielded s Hg Hrows Hcols.
  induction Hall as [|y children Hin _ IH];
    intros yielded s Hg Hrows Hcols; cbn [for_in].
  - exists s. rewrite app_nil_r. by split_and!.
  - rewrite Hrows, Hcols in Hin.
    destruct (grid_set_spec (matrix s) y (replacement_color p) Hg Hin)
      as (g' & Hset & Hg' & Hr' & Hc' & Hcol).
    erewrite bind_Ok; [|erewrite bind_Ok; [|by apply result_Ok]; done].
    destruct (IH (yielded ++ [MkNode y (Some node) (Some y) zero_cost])
                (Store g' (Write y.1 y.2 :: log s)))
      as (s' & -> & ? & ? & ? & Hcol'); cbn [matrix]; [done|congruence..|].
    exists s'. split_and!; [|done..|].
    + by rewrite <- app_assoc.
    + intros z. rewrite Hcol', Hcol. cbn [matrix].
      destruct (decide (z ∈ children)) as [Hz|Hz],
               (decide (z = y)) as [Hz'|Hz'];
        case_decide as Hz''; try done;
        exfalso; rewrite elem_of_cons in Hz''; tauto.
Qed.

Lemma expand_run (m : list (list Color)) start T R node log0 :
  rectangular m →
  let children := filter (λ y, color_at m y = Some T)
                    (neighbours4 (state node)) in
  ∃ m' log',
    expand zero_cost (init m start T R) node (Store m log0)
      = (Ok ((λ y, MkNode y (Some node) (Some y) zero_cost) <$> children),
         Store m' log') ∧
    rectangular m' ∧
    ∀ z, color_at m' z =
           if decide (z ∈ children) then Some R else color_at m z.
Proof.
  intros Hg children. unfold expand.
  destruct (actions_safe (init m start T R) (state node) (Store m log0))
    as (Hm & _ & Hin).
  pose proof (actions_rect (init m start T R) (state node) (Store m log0)
                Hg eq_refl eq_refl) as Hact.
  destruct (actions (init m start T R) (state node) (Store m log0))
    as [o [m1 log1]] eqn:Hrun.
  cbn [fst snd matrix init target_color] in *. subst o m1.
  fold children in Hrun, Hin.
  erewrite bind_Ok; [|done].
  destruct (expand_loop (init m start T R) node children []
              (Store m log1))
    as ([m' log'] & Hloop & Hg' & _ & _ & Hcol);
    [done..| by apply Hin |].
  exists m', log'. by rewrite Hloop.
Qed.

(** Running [expand] to its end on a node yields one child for each
    neighbour of the node's cell that holds the target colour, in the
    order of [actions], each with that neighbour as its state and its
    action, the node as its parent and the default cost; and, as an
    effect, those neighbours are painted with the replacement colour
    while every other cell is left as it was. *)
Theorem expand_paints_children
    (m : list (list Color)) start T R node log0 :
  rectangular m →
  let children := filter (λ y, color_at m y = Some T)
                    (neighbours4 (state node)) in
  ∃ m' log',
    expand zero_cost (init m start T R) node (Store m log0)
      = (Ok ((λ y, MkNode y (Some node) (Some y) zero_cost) <$> children),
         Store m' log') ∧
    ∀ z, color_at m' z =
           if decide (z ∈ children) then Some R else color_at m z.
Proof.
  intros Hg children.
  destruct (expand_run m start T R node log0 Hg)
    as (m' & log' & Hrun & _ & Hcol).
  by exists m', log'.
Qed.

(** [expand] cannot be repeated: with two different colours, running it
    a second time on the same node yields no child and changes
    nothing, the first run having painted every neighbour that held the
    target colour. *)
Theorem expand_twice_yields_nothing
    (m : list (list Color)) start T R node log0 :
  rectangular m → T ≠ R →
  ∃ m' log',
    (expand zero_cost (init m start T R) node (Store m log0)).2
      = Store m' log' ∧
    ∀ log1, ∃ log2,
      expand zero_cost (init m' start T R) node (Store m' log1)
        = (Ok [], Store m' log2).
Proof.
  intros Hg HTR.
  destruct (expand_run m start T R node log0 Hg)
    as (m' & log' & Hrun & Hg' & Hcol).
  exists m', log'. rewrite Hrun. split; [done|]. intros log1.
  destruct (actions_no_children (init m' start T R) (state node)
              (Store m' log1)) as [log2 Hact]; [done..| |].
  { intros y Hadj Hy. cbn [matrix target_color init] in Hy.
    rewrite Hcol in Hy. case_decide as Hy'; [congruence|].
    destruct Hy'. apply list_elem_of_filter.
    split; [done | by apply adjacent4_neighbours]. }
  exists log2. unfold expand. erewrite bind_Ok; [|exact Hact]. done.
Qed.

End expand_facts.

(** ** Flood fill: what a run never touches *)

Section flood_fill_frame.
Import FloodFill.
Context {Color : Type} `{EqDecision Color}.
Implicit Types (p : @FloodFillProblem Color) (s : @store Color).

(** However long the loop has run, and whether or not it has ended, the
    matrix has the shape it had and differs from the matrix the fill was
    given only on cells that held the target colour, hold the
    replacement colour and are connected to the start. *)
Lemma while_stack_frame p (g0 : list (list Color)) start fuel : ∀ stack s,
  rows p = grid_rows g0 → cols p = grid_cols g0 →
  rectangular (matrix s) →
  grid_rows (matrix s) = grid_rows g0 → grid_cols (matrix s) = grid_cols g0 →
  (∀ z, color_at (matrix s) z = color_at g0 z ∨
        (painted g0 (matrix s) (target_color p) (replacement_color p) z ∧
         reach g0 (target_color p) start z)) →
  (∀ z, z ∈ stack → reach g0 (target_color p) start z) →
  let g' := matrix (while_stack fuel p stack s).2 in
  rectangular g' ∧ grid_rows g' = grid_rows g0 ∧
  grid_cols g' = grid_cols g0 ∧
  ∀ z, color_at g' z = color_at g0 z ∨
       (painted g0 g' (target_color p) (replacement_color p) z ∧
        reach g0 (target_color p) start z).
Proof.
  induction fuel as [|fuel IH];
    intros stack s Hrows Hcols Hg Hr Hc Hcells Hstack.
  { by destruct stack as [|[cr cc] stack]. }
  destruct stack as [|x stack]; [done|].
  destruct (while_stack_step p fuel x stack s Hg)
    as (s' & -> & Hg' & Hrows' & Hcols' & _ & Hcol); [congruence..|].
  set (children := filter _ _) in *.
  assert (∀ z, z ∈ children →
            color_at g0 z = Some (target_color p) ∧
            reach g0 (target_color p) start z) as Hchildren.
  { intros z [Hz Hadj%adjacent4_neighbours]%list_elem_of_filter.
    assert (color_at g0 z = Some (target_color p)) as Hz0.
    { destruct (Hcells z) as [<-|[[? _] _]]; done. }
    split; [done|]. eapply reach_step; [|done..].
    apply Hstack. by left. }
  apply IH; [done..|congruence|congruence| |].
  - intros z. unfold painted in *. rewrite Hcol. case_decide as Hz.
    + right. by destruct (Hchildren z Hz).
    + destruct (Hcells z) as [?|[[? ?] ?]]; [by left | by right].
  - intros z [Hz|Hz]%elem_of_app.
    + apply (proj1 (elem_of_rev _ _)) in Hz. by apply Hchildren.
    + apply Hstack. by right.
Qed.

(** Whatever the two colours and however much fuel it is given,
    [flood_fill_dfs] started inside a rectangular matrix keeps the shape
    of the matrix and changes only cells that held the target colour
    and are connected to the start through such cells, and those only
    to the replacement colour; this holds of the matrix at the moment
    the fuel runs out as well. *)
Theorem flood_fill_dfs_only_paints_region
    (m : list (list Color)) (start : cell) (T R : Color) fuel log0 :
  rectangular m → in_bounds (grid_rows m) (grid_cols m) start →
  let m' := matrix (flood_fill_dfs fuel (init m start T R)
                      (Store m log0)).2 in
  rectangular m' ∧ grid_rows m' = grid_rows m ∧
  grid_cols m' = grid_cols m ∧
  ∀ z, color_at m' z = color_at m z ∨
       (color_at m z = Some T ∧ color_at m' z = Some R ∧
        reach m T start z).
Proof.
  intros Hg Hin.
  destruct (proj2 (color_at_in_bounds _ _ Hg) Hin) as [x Hx].
  pose proof (color_at_grid_get _ _ _ Hx) as Hget.
  destruct (grid_set_spec m start R Hg Hin)
    as (g1 & Hset & Hg1 & Hr1 & Hc1 & Hcol).
  destruct start as [r c]. cbn [fst snd] in *.
  unfold flood_fill_dfs. cbn [init initial target_color replacement_color].
  erewrite bind_Ok; [|by rewrite read_cell_eq; cbn [matrix]; rewrite Hget].
  destruct (decide (x ≠ T)) as [Hne|Heq].
  { cbn. split_and!; [done..|]. by left. }
  assert (x = T) as -> by (destruct (decide (x = T)); tauto).
  erewrite bind_Ok; [|by unfold write_cell; cbn [matrix]; rewrite Hset].
  destruct (while_stack_frame (init m (r, c) T R) m (r, c) fuel [(r, c)]
              (Store g1 (Write r c :: Read r c :: log0)))
    as (Hg' & Hr' & Hc' & Hcells); [done..| | |].
  - intros z. cbn [matrix]. rewrite Hcol. case_decide as Hz; [|by left].
    subst z. right. split; [|by apply reach_start]. split; [done|].
    rewrite Hcol. by rewrite decide_True.
  - intros z ->%list_elem_of_singleton. by apply reach_start.
  - split_and!; [done..|]. intros z.
    destruct (Hcells z) as [?|[[? ?] ?]]; [by left | by right].
Qed.

End flood_fill_frame.

(** ** The properties above on small inputs *)

(** A matrix of two colours laid out as a chequer board, filled with its
    own colour from a corner. *)
Lemma flood_fill_dfs_same_color_isolated_witness :
  (FloodFill.flood_fill_dfs 1
     (FloodFill.init [["X"; "Y"]; ["Y"; "X"]] (0, 0) "X" "X")
     (FloodFill.Store [["X"; "Y"]; ["Y"; "X"]] [])).1 = Ok tt ∧
  FloodFill.matrix
    (FloodFill.flood_fill_dfs 1
       (FloodFill.init [["X"; "Y"]; ["Y"; "X"]] (0, 0) "X" "X")
       (FloodFill.Store [["X"; "Y"]; ["Y"; "X"]] [])).2
    = [["X"; "Y"]; ["Y"; "X"]].
Proof.
  apply (flood_fill_dfs_same_color_isolated
           [["X"; "Y"]; ["Y"; "X"]] (0, 0) "X" 0 []).
  - by apply (bool_decide_unpack _).
  - reflexivity.
  - by apply (bool_decide_unpack _).
Defined.

(** A matrix of one row, started in a row it does not have. *)
Lemma flood_fill_dfs_start_out_of_range_witness :
  FloodFill.flood_fill_dfs 9 (FloodFill.init pair_matrix (5, 0) "X" "C")
    (FloodFill.Store pair_matrix [])
    = (Raise IndexError, FloodFill.Store pair_matrix [Read 5 0]).
Proof.
  apply (flood_fill_dfs_start_out_of_range pair_matrix 5 0 "X" "C" 9 []).
  - by apply (bool_decide_unpack _).
  - by apply (bool_decide_unpack _).
Defined.

(** The 3 x 3 matrix of X started at (-1, -1): only the last cell is
    painted. *)
Lemma flood_fill_dfs_negative_start_witness :
  ∃ m', (FloodFill.flood_fill_dfs 1
           (FloodFill.init all_X (-1, -1) "X" "C")
           (FloodFill.Store all_X [])).1 = Ok tt ∧
        FloodFill.matrix
          (FloodFill.flood_fill_dfs 1
             (FloodFill.init all_X (-1, -1) "X" "C")
             (FloodFill.Store all_X [])).2 = m' ∧
        ∀ z, color_at m' z =
               if decide (z = (grid_rows all_X + -1, grid_cols all_X + -1))
               then Some "C" else color_at all_X z.
Proof.
  apply (flood_fill_dfs_negative_start all_X (-1) (-1) "X" "C" 0 []).
  - by apply (bool_decide_unpack _).
  - by apply (bool_decide_unpack _).
  - by apply (bool_decide_unpack _).
  - reflexivity.
Defined.

Lemma flood_fill_dfs_idempotent_witness :
  ∃ n, ∀ k log0, ∃ m' log',
    FloodFill.flood_fill_dfs (n + k) (FloodFill.init all_X (1, 1) "X" "C")
      (FloodFill.Store all_X log0) = (Ok tt, FloodFill.Store m' log') ∧
    ∀ fuel log1,
      (FloodFill.flood_fill_dfs fuel (FloodFill.init m' (1, 1) "X" "C")
         (FloodFill.Store m' log1)).1 = Ok tt ∧
      FloodFill.matrix
        (FloodFill.flood_fill_dfs fuel (FloodFill.init m' (1, 1) "X" "C")
           (FloodFill.Store m' log1)).2 = m'.
Proof.
  apply (flood_fill_dfs_idempotent all_X (1, 1) "X" "C").
  - by apply (bool_decide_unpack _).
  - by apply (bool_decide_unpack _).
  - discriminate.
Defined.

Lemma actions_target_neighbours_witness :
  ∃ log',
    FloodFill.actions (FloodFill.init all_X (1, 1) "X" "C") (0, 0)
      (FloodFill.Store all_X [])
      = (Ok (filter (λ y, color_at all_X y = Some "X") (neighbours4 (0, 0))),
         FloodFill.Store all_X log').
Proof.
  apply (actions_target_neighbours all_X (1, 1) "X" "C" (0, 0) []).
  by apply (bool_decide_unpack _).
Defined.

Lemma flood_fill_dfs_only_paints_region_witness :
  let m' := FloodFill.matrix
              (FloodFill.flood_fill_dfs 3
                 (FloodFill.init all_X (1, 1) "X" "C")
                 (FloodFill.Store all_X [])).2 in
  rectangular m' ∧ grid_rows m' = grid_rows all_X ∧
  grid_cols m' = grid_cols all_X ∧
  ∀ z, color_at m' z = color_at all_X z ∨
       (color_at all_X z = Some "X" ∧ color_at m' z = Some "C" ∧
        reach all_X "X" (1, 1) z).
Proof.
  apply (flood_fill_dfs_only_paints_region all_X (1, 1) "X" "C" 3 []).
  - by apply (bool_decide_unpack _).
  - by apply (bool_decide_unpack _).
Defined.

(** [expand] on the root node of the 3 x 3 scenario. *)
Lemma expand_paints_children_witness :
  let node := FloodFill.MkNode (1, 1) None None 0 in
  let children := filter (λ y, color_at all_X y = Some "X")
                    (neighbours4 (FloodFill.state node)) in
  ∃ m' log',
    FloodFill.expand 0 (FloodFill.init all_X (1, 1) "X" "C") node
      (FloodFill.Store all_X [])
      = (Ok ((λ y, FloodFill.MkNode y (Some node) (Some y) 0) <$> children),
         FloodFill.Store m' log') ∧
    ∀ z, color_at m' z =
           if decide (z ∈ children) then Some "C" else color_at all_X z.
Proof.
  apply (expand_paints_children 0 all_X (1, 1) "X" "C"
           (FloodFill.MkNode (1, 1) None None 0) []).
  by apply (bool_decide_unpack _).
Defined.

Lemma expand_twice_yields_nothing_witness :
  let node := FloodFill.MkNode (1, 1) None None 0 in
  ∃ m' log',
    (FloodFill.expand 0 (FloodFill.init all_X (1, 1) "X" "C") node
       (FloodFill.Store all_X [])).2 = FloodFill.Store m' log' ∧
    ∀ log1, ∃ log2,
      FloodFill.expand 0 (FloodFill.init m' (1, 1) "X" "C") node
        (FloodFill.Store m' log1) = (Ok [], FloodFill.Store m' log2).
Proof.
  apply (expand_twice_yields_nothing 0 all_X (1, 1) "X" "C"
           (FloodFill.MkNode (1, 1) None None 0) []).
  - by apply (bool_decide_unpack _).
  - discriminate.
Defined.

(** The longest chain from A on the grid [[A,B],[D,C]]. *)
Lemma dfs_longest_is_longest_witness :
  ∃ n v,
    (∀ k log,
       (LongestPath.dfs_longest (n + k) (LongestPath.init abcd_matrix 65)
          0 0 log).1 = Ok v) ∧
    (∃ rest, chain abcd_matrix (0, 0) rest ∧ v = 1 + len rest) ∧
    (∀ rest, chain abcd_matrix (0, 0) rest → 1 + len rest ≤ v).
Proof.
  apply (dfs_longest_is_longest abcd_matrix 65 0 0).
  - by apply (bool_decide_unpack _).
  - by apply (bool_decide_unpack _).
  - by apply (bool_decide_unpack _).
Defined.

Lemma find_longest_consecutive_path_is_longest_witness :
  ∃ n v,
    (∀ k log,
       (LongestPath.find_longest_consecutive_path (n + k)
          (LongestPath.init abcd_matrix 65) log).1 = Ok v) ∧
    (∀ y rest, color_at abcd_matrix y = Some 65 → chain abcd_matrix y rest →
               1 + len rest ≤ v) ∧
    (v = 0 ∨ ∃ y rest, color_at abcd_matrix y = Some 65 ∧
                       chain abcd_matrix y rest ∧ v = 1 + len rest).
Proof.
  apply (find_longest_consecutive_path_is_longest abcd_matrix 65).
  - by apply (bool_decide_unpack _).
  - by apply (bool_decide_unpack _).
Defined.

Lemma longest_actions_successor_neighbours_witness :
  (LongestPath.actions (LongestPath.init abcd_matrix 65) (0, 0) []).1
    = Ok (filter (λ y, color_at abcd_matrix y = Some (65 + 1))
            (neighbours8 (0, 0))).
Proof.
  apply (longest_actions_successor_neighbours abcd_matrix 65 0 0 65 []).
  - by apply (bool_decide_unpack _).
  - reflexivity.
  - by apply (bool_decide_unpack _).
Defined.

Lemma find_longest_last_char_ValueError_witness :
  (LongestPath.find_longest_consecutive_path 1
     (LongestPath.init [[LongestPath.max_code_point]]
        LongestPath.max_code_point) []).1 = Raise ValueError.
Proof.
  apply (find_longest_last_char_ValueError
           [[LongestPath.max_code_point]] 0 []).
  - by apply (bool_decide_unpack _).
  - exists (0, 0). reflexivity.
Defined.

(** The word CAT on the scenario board. *)
Lemma can_form_word_dfs_traceable_witness :
  ∃ found,
    (WordSearch.can_form_word_dfs scenario_board (chars "CAT")
       (WordSearch.Store ∅ [])).1 = Ok found ∧
    (found = true ↔ traceable scenario_board (chars "CAT")).
Proof.
  apply (can_form_word_dfs_traceable scenario_board (chars "CAT")
           (WordSearch.Store ∅ [])).
  - by apply (bool_decide_unpack _).
  - discriminate.
Defined.

Lemma single_letter_word_found_witness :
  ∃ found,
    (WordSearch.can_form_word_dfs scenario_board ["C"%char]
       (WordSearch.Store ∅ [])).1 = Ok found ∧
    (found = true ↔ ∃ x, color_at scenario_board x = Some "C"%char).
Proof.
  apply (single_letter_word_found scenario_board "C"%char
           (WordSearch.Store ∅ [])).
  by apply (bool_decide_unpack _).
Defined.

Lemma find_all_words_traceable_witness :
  ∃ found,
    (WordSearch.find_all_words
       (WordSearch.init scenario_board scenario_dictionary)
       (WordSearch.Store ∅ [])).1 = Ok found ∧
    ∀ w, w ∈ found ↔ w ∈ scenario_dictionary ∧ traceable scenario_board w.
Proof.
  apply (find_all_words_traceable scenario_board scenario_dictionary
           (WordSearch.Store ∅ [])).
  - by apply (bool_decide_unpack _).
  - by apply (bool_decide_unpack _).
Defined.

